(** * psswrd: n-gram password generator

    A shallow embedding of [src/psswrd/psswrd.py]: the [Ngram] class (table
    construction, backoff sampling, phrase generation) and
    [generate_password] (the template interpreter).

    Modelling choices.
    - A Python [str] is a [list ascii]; characters are 8-bit and the case
      mapping of [str.upper]/[str.lower] is the one of the ASCII range:
      every statement that rests on it assumes an ASCII corpus.
    - Python integers that can be negative (the order [n], slice bounds,
      indices) are [Z]; slicing and indexing follow Python's rules for
      negative and out-of-range bounds.
    - [defaultdict(Counter)] is an association list in insertion order (the
      order [list(d.keys())] and [d.values()] enumerate), updated in place.
    - Exceptions are an error result; the random source is an explicit
      state threaded through every call. *)

From Stdlib Require Import String Ascii List ZArith Arith Bool Lia.
Import ListNotations.

Local Open Scope nat_scope.

(** ** Strings *)

Definition str := list ascii.

(** Literal notation for examples. *)
Definition s_ (s : string) : str := list_ascii_of_string s.

Fixpoint str_eqb (a b : str) : bool :=
  match a, b with
  | [], [] => true
  | x :: a', y :: b' => Ascii.eqb x y && str_eqb a' b'
  | _, _ => false
  end.

(** ** Exceptions *)

Inductive exn : Type :=
| IndexError
| KeyError
| ValueError.

Inductive result (A : Type) : Type :=
| Ok (a : A)
| Raise (e : exn).
Arguments Ok {A} a.
Arguments Raise {A} e.

(** ** Python slicing and indexing *)

(** A slice bound is clamped into [0, len]; a negative bound counts from
    the end. *)
Definition clamp (len : Z) (i : Z) : nat :=
  Z.to_nat (if (i <? 0)%Z then Z.max 0 (i + len) else Z.min i len).

(** [s[lo:hi]] *)
Definition slice (s : str) (lo hi : Z) : str :=
  let len := Z.of_nat (length s) in
  firstn (clamp len hi - clamp len lo) (skipn (clamp len lo) s).

(** [s[lo:]] *)
Definition slice_from (s : str) (lo : Z) : str :=
  skipn (clamp (Z.of_nat (length s)) lo) s.

(** [s[i]]: a negative index counts from the end; out of range raises. *)
Definition index (s : str) (i : Z) : result ascii :=
  let len := Z.of_nat (length s) in
  let j := if (i <? 0)%Z then (i + len)%Z else i in
  if ((0 <=? j) && (j <? len))%Z then
    match nth_error s (Z.to_nat j) with
    | Some c => Ok c
    | None => Raise IndexError
    end
  else Raise IndexError.

(** [range(lo, hi)] *)
Definition range (lo hi : Z) : list Z :=
  map (fun k => (lo + Z.of_nat k)%Z) (seq 0 (Z.to_nat (hi - lo))).

(** ** The n-gram table *)

(** [Counter]: next character to its occurrence count. *)
Definition Counter := list (ascii * nat).

(** [dict] from context to [Counter]. *)
Definition Table := list (str * Counter).

(** [ctr[c]]: a missing key of a [Counter] reads as 0. *)
Fixpoint ctr_get (ctr : Counter) (c : ascii) : nat :=
  match ctr with
  | [] => 0
  | (k, v) :: rest => if Ascii.eqb k c then v else ctr_get rest c
  end.

(** [ctr[c] += 1] *)
Fixpoint ctr_incr (ctr : Counter) (c : ascii) : Counter :=
  match ctr with
  | [] => [(c, 1)]
  | (k, v) :: rest =>
      if Ascii.eqb k c then (k, v + 1) :: rest else (k, v) :: ctr_incr rest c
  end.

(** [table[pre]] on the plain [dict]: [None] stands for [KeyError]. *)
Fixpoint tbl_get (table : Table) (pre : str) : option Counter :=
  match table with
  | [] => None
  | (k, ctr) :: rest => if str_eqb k pre then Some ctr else tbl_get rest pre
  end.

(** [table[pre][nxt] += 1] on the [defaultdict(Counter)]: a missing context
    is inserted, at the end, with a fresh counter. *)
Fixpoint tbl_incr (table : Table) (pre : str) (nxt : ascii) : Table :=
  match table with
  | [] => [(pre, ctr_incr [] nxt)]
  | (k, ctr) :: rest =>
      if str_eqb k pre then (k, ctr_incr ctr nxt) :: rest
      else (k, ctr) :: tbl_incr rest pre nxt
  end.

Definition keys {K V : Type} (d : list (K * V)) : list K := map fst d.
Definition values {K V : Type} (d : list (K * V)) : list V := map snd d.

Record Ngram : Type := mkNgram { table : Table; n : Z }.

(** The inner loop of [__init__]:
    [while pre: table[pre][nxt] += 1; pre = pre[1:]]. *)
Fixpoint init_while (table : Table) (pre : str) (nxt : ascii) : Table :=
  match pre with
  | [] => table
  | _ :: pre' => init_while (tbl_incr table pre nxt) pre' nxt
  end.

(** The outer loop of [__init__] over the start indices. *)
Fixpoint init_for (corpus : str) (n : Z) (idx : list Z) (table : Table)
  : result Table :=
  match idx with
  | [] => Ok table
  | i :: idx' =>
      let pre := slice corpus i (i + n) in
      match index corpus (i + n) with
      | Raise e => Raise e
      | Ok nxt => init_for corpus n idx' (init_while table pre nxt)
      end
  end.

(** [Ngram.__init__(corpus, n)] *)
Definition Ngram_init (corpus : str) (n : Z) : result Ngram :=
  match init_for corpus n (range 0 (Z.of_nat (length corpus) - n)) [] with
  | Raise e => Raise e
  | Ok table => Ok (mkNgram table n)
  end.

(** ** The random source and the generation monad *)

(** The random source is a tape of raw draws read at a cursor: the draw
    number [i] below [k] is [tape i mod k], so that each value below [k] is
    the image of exactly one raw value below [k].  [shortenings] and
    [fallbacks] are ghost counters: they count the executions of
    [pre = pre[1:]] in the handler of [__getitem__] and the entries into
    its final fallback; no computed value depends on them. *)
Record World : Type := mkWorld {
  tape : nat -> nat;
  cursor : nat;
  shortenings : nat;
  fallbacks : nat
}.

Definition M (A : Type) : Type := World -> result (A * World).

Definition ret {A : Type} (a : A) : M A := fun w => Ok (a, w).

Definition bind {A B : Type} (m : M A) (k : A -> M B) : M B :=
  fun w => match m w with
           | Ok (a, w') => k a w'
           | Raise e => Raise e
           end.

Definition raise {A : Type} (e : exn) : M A := fun _ => Raise e.

Definition lift {A : Type} (r : result A) : M A :=
  fun w => match r with Ok a => Ok (a, w) | Raise e => Raise e end.

Notation "x <- m ;; k" := (bind m (fun x => k))
  (at level 61, m at next level, right associativity).
Notation "m >> k" := (bind m (fun _ => k))
  (at level 61, right associativity).

Definition draw (w : World) : World :=
  mkWorld (tape w) (S (cursor w)) (shortenings w) (fallbacks w).

(** A uniform integer below [k]: [random._randbelow(k)], and the floor of
    [random() * k]. *)
Definition randbelow (k : nat) : M nat :=
  fun w => match k with
           | 0 => Raise ValueError
           | _ => Ok (tape w (cursor w) mod k, draw w)
           end.

Definition tick_shorten : M unit :=
  fun w => Ok (tt, mkWorld (tape w) (cursor w) (S (shortenings w)) (fallbacks w)).

Definition tick_fallback : M unit :=
  fun w => Ok (tt, mkWorld (tape w) (cursor w) (shortenings w) (S (fallbacks w))).

(** [random.choice(seq)] *)
Definition choice {A : Type} (seq : list A) : M A :=
  match seq with
  | [] => raise IndexError
  | _ =>
      i <- randbelow (length seq) ;;
      match nth_error seq i with
      | Some a => ret a
      | None => raise IndexError
      end
  end.

(** [itertools.accumulate(weights)] *)
Fixpoint accumulate_from (acc : nat) (weights : list nat) : list nat :=
  match weights with
  | [] => []
  | w :: weights' => (acc + w) :: accumulate_from (acc + w) weights'
  end.

Definition accumulate (weights : list nat) : list nat :=
  accumulate_from 0 weights.

(** [bisect.bisect(a, x)] on a sorted list: the number of leading entries
    that are at most [x]. *)
Fixpoint bisect (a : list nat) (x : nat) : nat :=
  match a with
  | [] => 0
  | c :: a' => if x <? c then 0 else S (bisect a' x)
  end.

(** [random.choices(population, weights=weights)[0]]: the cumulative
    weights are searched, up to the last but one, for the floor of
    [random() * total]. *)
Definition choices {A : Type} (population : list A) (weights : list nat)
  : M A :=
  let cum_weights := accumulate weights in
  if negb (length cum_weights =? length population) then raise ValueError
  else
    match rev cum_weights with
    | [] => raise IndexError
    | total :: _ =>
        if total =? 0 then raise ValueError
        else
          x <- randbelow total ;;
          match nth_error population (bisect (removelast cum_weights) x) with
          | Some a => ret a
          | None => raise IndexError
          end
    end.

(** ** Sampling *)

(** The loop of [__getitem__]: [None] when it falls through with [pre]
    empty, the returned character otherwise. *)
Fixpoint getitem_while (table : Table) (pre : str) : M (option ascii) :=
  match pre with
  | [] => ret None
  | _ :: pre' =>
      match tbl_get table pre with
      | Some ctr =>
          c <- choices (keys ctr) (values ctr) ;;
          ret (Some c)
      | None =>
          tick_shorten >> getitem_while table pre'
      end
  end.

(** [Ngram.__getitem__(self, pre)] *)
Definition Ngram_getitem (self : Ngram) (pre : str) : M ascii :=
  let table := table self in
  let pre := slice_from pre (- n self) in
  r <- getitem_while table pre ;;
  match r with
  | Some c => ret c
  | None =>
      tick_fallback >>
      k <- choice (keys table) ;;
      match tbl_get table k with
      | None => raise KeyError
      | Some ctr => choices (keys ctr) (values ctr)
      end
  end.

(** The loop of [phrase]: [for _ in range(length): s += self[s]]. *)
Fixpoint phrase_for (self : Ngram) (iters : nat) (s : str) : M str :=
  match iters with
  | 0 => ret s
  | S iters' =>
      c <- Ngram_getitem self s ;;
      phrase_for self iters' (s ++ [c])
  end.

(** [Ngram.phrase(self, length)] *)
Definition Ngram_phrase (self : Ngram) (length : Z) : M str :=
  phrase_for self (Z.to_nat length) [].

(** ** The template interpreter *)

Definition is_between (lo hi : nat) (c : ascii) : bool :=
  (lo <=? nat_of_ascii c) && (nat_of_ascii c <=? hi).

(** [c.upper()] and [c.lower()] of a one-character string. *)
Definition upper (c : ascii) : ascii :=
  if is_between 97 122 c then ascii_of_nat (nat_of_ascii c - 32) else c.

Definition lower (c : ascii) : ascii :=
  if is_between 65 90 c then ascii_of_nat (nat_of_ascii c + 32) else c.

Definition digits : str := s_ "0123456789".
Definition punctuation : str := s_ "!@#$%&*+-=?;".

(** [l.pop()]: the last element and the list without it. *)
Definition pop {A : Type} (l : list A) : result (A * list A) :=
  match rev l with
  | [] => Raise IndexError
  | x :: r => Ok (x, rev r)
  end.

(** The loop [for c in template] of [generate_password]; [pwd] is a list
    of one-character strings. *)
Fixpoint template_for (template : str) (phrase : list ascii)
  (pwd : list str) : M (list str) :=
  match template with
  | [] => ret pwd
  | c :: template' =>
      if Ascii.eqb c "u" then
        p <- lift (pop phrase) ;;
        template_for template' (snd p) (pwd ++ [[upper (fst p)]])
      else if Ascii.eqb c "l" then
        p <- lift (pop phrase) ;;
        template_for template' (snd p) (pwd ++ [[fst p]])
      else if Ascii.eqb c "m" then
        p <- lift (pop phrase) ;;
        e <- choice [lower (fst p); upper (fst p)] ;;
        template_for template' (snd p) (pwd ++ [[e]])
      else if Ascii.eqb c "d" then
        e <- choice digits ;;
        template_for template' phrase (pwd ++ [[e]])
      else if Ascii.eqb c "p" then
        e <- choice punctuation ;;
        template_for template' phrase (pwd ++ [[e]])
      else
        template_for template' phrase (pwd ++ [[c]])
  end.

(** [generate_password(ngram, template)] *)
Definition generate_password (ngram : Ngram) (template : str) : M str :=
  let pwd_len := Z.of_nat (length template) in
  s <- Ngram_phrase ngram pwd_len ;;
  let phrase := rev s in
  pwd <- template_for template phrase [] ;;
  ret (concat pwd).

(** * Specification-side definitions *)

(** The non-empty suffixes [ctx], [ctx[1:]], [ctx[2:]], ... of a context,
    longest first. *)
Fixpoint suffixes (ctx : str) : list str :=
  match ctx with
  | [] => []
  | _ :: ctx' => ctx :: suffixes ctx'
  end.

(** The window starting at [i]: [corpus[i : i+n]]. *)
Definition window (corpus : str) (n i : nat) : str :=
  firstn n (skipn i corpus).

(** The observations the window starting at [i] contributes: one per
    non-empty suffix of the window, all with the character that follows
    the window. *)
Definition window_obs (corpus : str) (n i : nat) : list (str * ascii) :=
  match nth_error corpus (i + n) with
  | Some nxt => map (fun s => (s, nxt)) (suffixes (window corpus n i))
  | None => []
  end.

(** All observations, window after window, for the start indices
    [0 .. len(corpus) - n - 1]. *)
Definition observations (corpus : str) (n : nat) : list (str * ascii) :=
  flat_map (window_obs corpus n) (seq 0 (length corpus - n)).

(** How many observations are the pair (context [k], next [c]). *)
Definition count_obs (obs : list (str * ascii)) (k : str) (c : ascii) : nat :=
  length (filter (fun o => str_eqb (fst o) k && Ascii.eqb (snd o) c) obs).

(** The table after incrementing for each observation in turn. *)
Definition record (t : Table) (obs : list (str * ascii)) : Table :=
  fold_left (fun t o => tbl_incr t (fst o) (snd o)) obs t.

(** [table[k][c]], reading any missing entry as 0. *)
Definition tbl_count (t : Table) (k : str) (c : ascii) : nat :=
  match tbl_get t k with
  | Some ctr => ctr_get ctr c
  | None => 0
  end.

(** [ctx] ends with [k]. *)
Definition ends_with (ctx k : str) : bool :=
  (length k <=? length ctx) && str_eqb (skipn (length ctx - length k) ctx) k.

(** The total weight of a counter. *)
Definition total (ctr : Counter) : nat := list_sum (values ctr).

(** The candidate a point [x] of [0 .. total - 1] falls on, when each
    candidate owns as many consecutive points as its count. *)
Fixpoint pick (ctr : Counter) (x : nat) : option ascii :=
  match ctr with
  | [] => None
  | (k, v) :: rest => if x <? v then Some k else pick rest (x - v)
  end.

(** How many points of [0 .. total - 1] fall on [c]. *)
Definition points_on (ctr : Counter) (c : ascii) : nat :=
  length (filter (fun x => match pick ctr x with
                           | Some k => Ascii.eqb k c
                           | None => false
                           end) (seq 0 (total ctr))).

(** The world after [d] draws, [s] shortenings and [f] fallbacks. *)
Definition advance (d s f : nat) (w : World) : World :=
  mkWorld (tape w) (cursor w + d) (shortenings w + s) (fallbacks w + f).

(** Well-formed counters of a table built from [corpus]: none is empty,
    every count is positive, every candidate occurs in the corpus. *)
Definition ctr_ok (corpus : str) (ctr : Counter) : Prop :=
  ctr <> [] /\ NoDup (keys ctr) /\
  Forall (fun cw => 0 < snd cw /\ In (fst cw) corpus) ctr.

Definition tbl_ok (corpus : str) (t : Table) : Prop :=
  NoDup (keys t) /\ Forall (fun e => fst e <> [] /\ ctr_ok corpus (snd e)) t.

(** ** Template positions *)

Definition is_letter_directive (c : ascii) : bool :=
  Ascii.eqb c "u" || Ascii.eqb c "l" || Ascii.eqb c "m".

Definition is_random_directive (c : ascii) : bool :=
  Ascii.eqb c "m" || Ascii.eqb c "d" || Ascii.eqb c "p".

Definition is_directive (c : ascii) : bool :=
  is_letter_directive c || is_random_directive c.

(** Phrase letters and random draws a template consumes. *)
Definition letters (template : str) : nat :=
  length (filter is_letter_directive template).

Definition randoms (template : str) : nat :=
  length (filter is_random_directive template).

(** What directive [c] emits, given the next unconsumed phrase letter [p]
    (if any is left) and the next raw draw [r]. *)
Definition emit (c : ascii) (p : option ascii) (r : nat) : option ascii :=
  if Ascii.eqb c "u" then option_map upper p
  else if Ascii.eqb c "l" then p
  else if Ascii.eqb c "m" then
    match p with
    | Some p => nth_error [lower p; upper p] (r mod 2)
    | None => None
    end
  else if Ascii.eqb c "d" then nth_error digits (r mod 10)
  else if Ascii.eqb c "p" then nth_error punctuation (r mod 12)
  else Some c.

(** What position [i] of [template] emits, when the phrase is [s] (in
    generation order) and the draws of the loop start at [cur]: it uses the
    phrase letter numbered by the letter directives before [i], and the
    draw numbered by the random directives before [i]. *)
Definition emitted (template s : str) (tp : nat -> nat) (cur i : nat)
  : option ascii :=
  match nth_error template i with
  | None => None
  | Some c =>
      emit c (nth_error s (letters (firstn i template)))
             (tp (cur + randoms (firstn i template)))
  end.

(** The window starting at [i] is followed by [c]. *)
Definition follows (corpus : str) (n i : nat) (c : ascii) : bool :=
  match nth_error corpus (i + n) with
  | Some x => Ascii.eqb x c
  | None => false
  end.

(** A lowercase ASCII letter. *)
Definition is_lowercase (c : ascii) : Prop := is_between 97 122 c = true.

(** ** The front end: corpus clean-up, [password_gui], [main] *)

(** The character classes of [re] and [str.lower()] are those of ASCII
    text, as for [upper] and [lower]. *)
Definition is_ascii (c : ascii) : Prop := nat_of_ascii c < 128.

(** [\d] *)
Definition is_digit (c : ascii) : bool := is_between 48 57 c.

(** [\w]: a letter, a digit or the underscore. *)
Definition is_word (c : ascii) : bool :=
  is_between 97 122 c || is_between 65 90 c || is_digit c || Ascii.eqb c "_".

(** [re.sub(r"[\W\d]", "", text)]: every character that is no word
    character, or is a digit, is removed. *)
Definition strip_nonword_digits (text : str) : str :=
  filter (fun c => negb (negb (is_word c) || is_digit c)) text.

(** [re.sub(r"[\W\d]", "", corpus_text).lower()], the corpus of [main]. *)
Definition clean_corpus (corpus_text : str) : str :=
  map lower (strip_nonword_digits corpus_text).

(** The default template of [password_gui]. *)
Definition default_template : str := s_ "llllllllddd".

(** What one [window.read()] returns: the event ([sg.WIN_CLOSED] or the
    text of the button clicked) and the contents of the two input fields,
    the password field and the template field, in layout order. *)
Inductive event : Type :=
| WIN_CLOSED
| Clicked (button : str).

Record reading : Type := mkReading {
  ev : event;
  pwd_field : str;
  template_field : str
}.

(** [event in (sg.WIN_CLOSED, "Done")] *)
Definition is_done (e : event) : bool :=
  match e with
  | WIN_CLOSED => true
  | Clicked b => str_eqb b (s_ "Done")
  end.

(** How a run of the front end ends, with the passwords it has copied to
    the clipboard and displayed so far, oldest first: [sys.exit(0)], an
    exception of the core, or the loop waiting in [window.read()] when the
    readings supplied are used up. *)
Inductive outcome : Type :=
| Exited (shown : list str)
| Crashed (e : exn) (shown : list str)
| Waiting (shown : list str).

(** The loop [while True] of [password_gui]; the calls into the GUI and
    the clipboard are taken to return, the readings are its input. *)
Fixpoint gui_while (ngram : Ngram) (template : str) (reads : list reading)
  (shown : list str) (w : World) : outcome :=
  match generate_password ngram template w with
  | Raise e => Crashed e shown
  | Ok (password, w') =>
      let shown := shown ++ [password] in
      match reads with
      | [] => Waiting shown
      | r :: reads' =>
          if is_done (ev r) then Exited shown
          else gui_while ngram (template_field r) reads' shown w'
      end
  end.

(** [password_gui(ngram)] *)
Definition password_gui (ngram : Ngram) (reads : list reading) (w : World)
  : outcome :=
  gui_while ngram default_template reads [] w.

(** What [parse_args()] does with the command line: it returns, or
    [argparse] ends the process with a status (after [-h], [-v], or an
    argument it does not know). *)
Inductive parse_result : Type :=
| Parsed
| ArgparseExit (status : Z).

(** How a call of [main()] ends: [argparse] ended the process; the module
    global [corpus_text] had no binding at its use in line 198, a
    [NameError]; or the front end ran. *)
Inductive main_outcome : Type :=
| ArgsExited (status : Z)
| NameError_corpus_text
| FrontEnd (o : outcome).

(** [main()]; [corpus_text] is the binding of the module global at the
    time of the call, [None] when it has none yet. *)
Definition main (args : parse_result) (corpus_text : option str)
  (reads : list reading) (w : World) : main_outcome :=
  match args with
  | ArgparseExit status => ArgsExited status
  | Parsed =>
      match corpus_text with
      | None => NameError_corpus_text
      | Some text =>
          let corpus := clean_corpus text in
          match Ngram_init corpus 3 with
          | Raise e => FrontEnd (Crashed e [])
          | Ok ngram => FrontEnd (password_gui ngram reads w)
          end
      end
  end.


(** [main] called once the module is loaded, as its entry point does:
    [corpus_text] is bound to the module's text. *)
Definition run_entry_point (args : parse_result) (corpus_text : str)
  (reads : list reading) (w : World) : main_outcome :=
  main args (Some corpus_text) reads w.

(** The sum of all counts of a table. *)
Definition tbl_total (t : Table) : nat := list_sum (map total (values t)).

(** The readings before the first one that ends the loop, and whether
    there is such a one. *)
Fixpoint before_done (reads : list reading) : list reading :=
  match reads with
  | [] => []
  | r :: reads' => if is_done (ev r) then [] else r :: before_done reads'
  end.

Definition has_done (reads : list reading) : bool :=
  existsb (fun r => is_done (ev r)) reads.

Definition shown_of (o : outcome) : list str :=
  match o with
  | Exited shown => shown
  | Crashed _ shown => shown
  | Waiting shown => shown
  end.

(** * Lemmas *)

(** ** Strings, slices *)

Lemma str_eqb_eq (a b : str) : str_eqb a b = true <-> a = b.
Proof.
  revert b; induction a as [|x a IH]; intros [|y b]; simpl;
    try (split; [discriminate | discriminate]); try tauto.
  rewrite andb_true_iff, Ascii.eqb_eq, IH.
  split; [intros [-> ->]; reflexivity | intros H; inversion H; auto].
Qed.

Lemma str_eqb_refl (a : str) : str_eqb a a = true.
Proof. apply str_eqb_eq; reflexivity. Qed.

Lemma str_eqb_neq (a b : str) : str_eqb a b = false <-> a <> b.
Proof.
  rewrite <- str_eqb_eq. destruct (str_eqb a b); split; congruence.
Qed.

Lemma clamp_nat (len i : nat) :
  i <= len -> clamp (Z.of_nat len) (Z.of_nat i) = i.
Proof.
  intros H. unfold clamp.
  destruct (Z.ltb_spec (Z.of_nat i) 0); lia.
Qed.

Lemma slice_window (corpus : str) (n i : nat) :
  i + n <= length corpus ->
  slice corpus (Z.of_nat i) (Z.of_nat i + Z.of_nat n) = window corpus n i.
Proof.
  intros H. unfold slice, window.
  rewrite <- Nat2Z.inj_add, !clamp_nat by lia.
  f_equal; lia.
Qed.

Lemma index_nat (corpus : str) (j : nat) :
  index corpus (Z.of_nat j) =
  match nth_error corpus j with Some c => Ok c | None => Raise IndexError end.
Proof.
  unfold index.
  destruct (Z.ltb_spec (Z.of_nat j) 0); [lia|].
  rewrite Nat2Z.id.
  destruct (Z.leb_spec 0 (Z.of_nat j)); [|lia]. simpl.
  destruct (Z.ltb_spec (Z.of_nat j) (Z.of_nat (length corpus))); [reflexivity|].
  assert (E : nth_error corpus j = None) by (apply nth_error_None; lia).
  rewrite E; reflexivity.
Qed.

Lemma index_In (corpus : str) (j : Z) (c : ascii) :
  index corpus j = Ok c -> In c corpus.
Proof.
  unfold index.
  destruct ((0 <=? _) && _)%Z; [|discriminate].
  destruct (nth_error corpus _) eqn:E; [|discriminate].
  intros H; inversion H; subst. eapply nth_error_In; eauto.
Qed.

Lemma range_nat (z : Z) :
  range 0 z = map Z.of_nat (seq 0 (Z.to_nat z)).
Proof.
  unfold range. rewrite Z.sub_0_r.
  apply map_ext; intros; lia.
Qed.

(** ** Counting in the table *)

Lemma ctr_get_incr (ctr : Counter) (c c' : ascii) :
  ctr_get (ctr_incr ctr c) c' =
  ctr_get ctr c' + (if Ascii.eqb c c' then 1 else 0).
Proof.
  induction ctr as [|[k v] rest IH]; simpl.
  - destruct (Ascii.eqb c c'); reflexivity.
  - destruct (Ascii.eqb_spec k c) as [->|Hkc]; simpl.
    + destruct (Ascii.eqb c c'); lia.
    + destruct (Ascii.eqb_spec k c') as [->|Hkc'].
      * destruct (Ascii.eqb_spec c c'); [congruence | lia].
      * apply IH.
Qed.

Lemma tbl_count_incr (t : Table) (pre : str) (nxt : ascii) (k : str) (c : ascii) :
  tbl_count (tbl_incr t pre nxt) k c =
  tbl_count t k c + (if str_eqb pre k && Ascii.eqb nxt c then 1 else 0).
Proof.
  unfold tbl_count.
  induction t as [|[k0 ctr] rest IH]; simpl.
  - destruct (str_eqb pre k); simpl; [|reflexivity].
    destruct (Ascii.eqb nxt c); reflexivity.
  - destruct (str_eqb k0 pre) eqn:E0; simpl.
    + apply str_eqb_eq in E0; subst k0.
      destruct (str_eqb pre k); simpl; [|lia].
      rewrite ctr_get_incr. reflexivity.
    + destruct (str_eqb k0 k) eqn:E1; [|apply IH].
      apply str_eqb_eq in E1; subst k0.
      destruct (str_eqb pre k) eqn:E2; simpl; [|lia].
      apply str_eqb_eq in E2; subst pre.
      rewrite str_eqb_refl in E0; discriminate.
Qed.

Lemma count_obs_app (o1 o2 : list (str * ascii)) (k : str) (c : ascii) :
  count_obs (o1 ++ o2) k c = count_obs o1 k c + count_obs o2 k c.
Proof. unfold count_obs. rewrite filter_app, length_app. reflexivity. Qed.

Lemma tbl_count_record (obs : list (str * ascii)) (t : Table) (k : str) (c : ascii) :
  tbl_count (record t obs) k c = tbl_count t k c + count_obs obs k c.
Proof.
  revert t; induction obs as [|[s x] obs IH]; intros t; simpl.
  - unfold count_obs; simpl; lia.
  - unfold record in *; simpl. rewrite IH, tbl_count_incr.
    unfold count_obs; simpl.
    destruct (str_eqb s k && Ascii.eqb x c); simpl; lia.
Qed.

Lemma record_app (o1 o2 : list (str * ascii)) (t : Table) :
  record t (o1 ++ o2) = record (record t o1) o2.
Proof. unfold record. apply fold_left_app. Qed.

(** ** The construction loops as a fold over observations *)

Lemma init_while_record (pre : str) (nxt : ascii) (t : Table) :
  init_while t pre nxt = record t (map (fun s => (s, nxt)) (suffixes pre)).
Proof.
  revert t; induction pre as [|x pre IH]; intros t; [reflexivity|].
  simpl. rewrite IH. reflexivity.
Qed.

Lemma init_for_nat (corpus : str) (n : nat) (idx : list nat) (t : Table) :
  (forall i, In i idx -> i + n < length corpus) ->
  init_for corpus (Z.of_nat n) (map Z.of_nat idx) t =
  Ok (record t (flat_map (window_obs corpus n) idx)).
Proof.
  revert t; induction idx as [|i idx IH]; intros t H; [reflexivity|].
  simpl. rewrite <- Nat2Z.inj_add, index_nat.
  assert (Hi : i + n < length corpus) by (apply H; left; reflexivity).
  unfold window_obs at 1.
  destruct (nth_error corpus (i + n)) as [nxt|] eqn:E.
  - rewrite Nat2Z.inj_add, slice_window by lia.
    rewrite IH by (intros; apply H; right; assumption).
    rewrite init_while_record, record_app. reflexivity.
  - apply nth_error_None in E; lia.
Qed.

Lemma Ngram_init_nat (corpus : str) (n : nat) :
  Ngram_init corpus (Z.of_nat n) =
  Ok (mkNgram (record [] (observations corpus n)) (Z.of_nat n)).
Proof.
  unfold Ngram_init, observations.
  rewrite range_nat.
  replace (Z.to_nat (Z.of_nat (length corpus) - Z.of_nat n))
    with (length corpus - n) by lia.
  rewrite init_for_nat; [reflexivity|].
  intros i Hi. apply in_seq in Hi. lia.
Qed.

Lemma suffixes_nonempty (pre : str) : Forall (fun s => s <> []) (suffixes pre).
Proof.
  induction pre as [|x pre IH]; simpl; constructor; [discriminate | exact IH].
Qed.

(** Whatever the order [n], a construction that returns has folded a list
    of observations whose contexts are non-empty and whose next characters
    occur in the corpus. *)
Lemma init_for_record (corpus : str) (n : Z) (idx : list Z) (t t' : Table) :
  init_for corpus n idx t = Ok t' ->
  exists obs, t' = record t obs /\
    Forall (fun o => fst o <> [] /\ In (snd o) corpus) obs.
Proof.
  revert t; induction idx as [|i idx IH]; intros t H; simpl in H.
  - inversion H; subst. exists []. split; [reflexivity | constructor].
  - destruct (index corpus (i + n)) as [nxt|e] eqn:E; [|discriminate].
    apply IH in H. destruct H as (obs & -> & Hobs).
    exists (map (fun s => (s, nxt)) (suffixes (slice corpus i (i + n))) ++ obs).
    split.
    + rewrite init_while_record, record_app. reflexivity.
    + apply Forall_app; split; [|exact Hobs].
      apply Forall_map. eapply Forall_impl; [|apply suffixes_nonempty].
      simpl. intros s Hs. split; [exact Hs | eapply index_In; eauto].
Qed.

(** ** Table invariants *)

Lemma ctr_incr_keys_In (ctr : Counter) (c x : ascii) :
  In x (keys (ctr_incr ctr c)) <-> x = c \/ In x (keys ctr).
Proof.
  induction ctr as [|[k v] rest IH]; simpl.
  - intuition congruence.
  - destruct (Ascii.eqb_spec k c) as [->|Hkc]; simpl.
    + intuition congruence.
    + rewrite IH. intuition congruence.
Qed.

Lemma ctr_incr_ok (corpus : str) (ctr : Counter) (c : ascii) :
  In c corpus ->
  (ctr = [] \/ ctr_ok corpus ctr) -> ctr_ok corpus (ctr_incr ctr c).
Proof.
  intros Hc [->|(Hne & Hnd & Hall)].
  - simpl. repeat split; try discriminate.
    + constructor; [intros [] | constructor].
    + constructor; [simpl; split; [lia | exact Hc] | constructor].
  - repeat split.
    + destruct ctr as [|[k v] rest]; [congruence|]. simpl.
      destruct (Ascii.eqb k c); discriminate.
    + clear Hne Hall. induction ctr as [|[k v] rest IH]; simpl.
      * constructor; [intros [] | constructor].
      * simpl in Hnd. inversion Hnd as [|? ? Hk Hrest]; subst.
        destruct (Ascii.eqb_spec k c) as [->|Hkc]; simpl.
        -- constructor; assumption.
        -- constructor; [|apply IH; assumption].
           rewrite ctr_incr_keys_In. intuition congruence.
    + clear Hne Hnd. induction Hall as [|[k v] rest [Hv Hk] Hall IH]; simpl.
      * constructor; [simpl; split; [lia | exact Hc] | constructor].
      * simpl in *. destruct (Ascii.eqb k c); constructor; simpl; auto.
        split; [lia | exact Hk].
Qed.

Lemma tbl_incr_keys_In (t : Table) (pre : str) (nxt : ascii) (x : str) :
  In x (keys (tbl_incr t pre nxt)) <-> x = pre \/ In x (keys t).
Proof.
  induction t as [|[k ctr] rest IH]; simpl.
  - intuition congruence.
  - destruct (str_eqb k pre) eqn:E; simpl.
    + apply str_eqb_eq in E; subst. intuition congruence.
    + rewrite IH. intuition congruence.
Qed.

Lemma tbl_incr_ok (corpus : str) (t : Table) (pre : str) (nxt : ascii) :
  pre <> [] -> In nxt corpus ->
  tbl_ok corpus t -> tbl_ok corpus (tbl_incr t pre nxt).
Proof.
  intros Hpre Hnxt [Hnd Hall]. split.
  - clear Hall. induction t as [|[k ctr] rest IH]; simpl.
    + constructor; [intros [] | constructor].
    + simpl in Hnd. inversion Hnd as [|? ? Hk Hrest]; subst.
      destruct (str_eqb k pre) eqn:E; simpl.
      * constructor; assumption.
      * constructor; [|apply IH; assumption].
        rewrite tbl_incr_keys_In. apply str_eqb_neq in E.
        intuition congruence.
  - clear Hnd. induction Hall as [|[k ctr] rest [Hk Hctr] Hall IH]; simpl.
    + constructor; [|constructor]. simpl. split; [exact Hpre|].
      apply (ctr_incr_ok corpus [] nxt Hnxt). left; reflexivity.
    + simpl in *. destruct (str_eqb k pre); constructor; simpl; auto.
      split; [exact Hk|]. apply ctr_incr_ok; [exact Hnxt | right; exact Hctr].
Qed.

Lemma tbl_ok_nil (corpus : str) : tbl_ok corpus [].
Proof. split; constructor. Qed.

Lemma record_ok (corpus : str) (obs : list (str * ascii)) (t : Table) :
  Forall (fun o => fst o <> [] /\ In (snd o) corpus) obs ->
  tbl_ok corpus t -> tbl_ok corpus (record t obs).
Proof.
  intros Hobs; revert t.
  induction Hobs as [|[s x] obs [Hs Hx] Hobs IH]; intros t Ht; [exact Ht|].
  unfold record in *; simpl. apply IH. apply tbl_incr_ok; assumption.
Qed.

Lemma record_keys_In (obs : list (str * ascii)) (t : Table) (x : str) :
  In x (keys (record t obs)) <-> In x (keys t) \/ In x (map fst obs).
Proof.
  revert t; induction obs as [|[s c] obs IH]; intros t; simpl.
  - tauto.
  - unfold record in *; simpl. rewrite IH, tbl_incr_keys_In. intuition congruence.
Qed.

(** Every model a construction returns has a well-formed table. *)
Lemma Ngram_init_ok (corpus : str) (order : Z) (m : Ngram) :
  Ngram_init corpus order = Ok m ->
  tbl_ok corpus (table m) /\ n m = order.
Proof.
  unfold Ngram_init.
  destruct (init_for corpus order _ []) as [t|e] eqn:E; [|discriminate].
  intros H; inversion H; subst; simpl. split; [|reflexivity].
  apply init_for_record in E. destruct E as (obs & -> & Hobs).
  apply record_ok; [exact Hobs | apply tbl_ok_nil].
Qed.

Lemma tbl_get_In (t : Table) (k : str) (ctr : Counter) :
  tbl_get t k = Some ctr -> In (k, ctr) t.
Proof.
  induction t as [|[k0 c0] rest IH]; simpl; [discriminate|].
  destruct (str_eqb k0 k) eqn:E.
  - apply str_eqb_eq in E; subst. intros H; inversion H; subst. left; reflexivity.
  - intros H; right; apply IH; exact H.
Qed.

Lemma tbl_get_keys (t : Table) (k : str) :
  In k (keys t) <-> exists ctr, tbl_get t k = Some ctr.
Proof.
  induction t as [|[k0 c0] rest IH]; simpl.
  - split; [intros [] | intros [? ?]; discriminate].
  - destruct (str_eqb k0 k) eqn:E.
    + apply str_eqb_eq in E; subst. split; eauto.
    + apply str_eqb_neq in E. rewrite <- IH. intuition congruence.
Qed.

Lemma tbl_get_ok (corpus : str) (t : Table) (k : str) (ctr : Counter) :
  tbl_ok corpus t -> tbl_get t k = Some ctr -> k <> [] /\ ctr_ok corpus ctr.
Proof.
  intros [_ Hall] H. apply tbl_get_In in H.
  rewrite Forall_forall in Hall. apply (Hall _ H).
Qed.

(** ** Weighted and uniform draws *)

Lemma accumulate_from_length (ws : list nat) (acc : nat) :
  length (accumulate_from acc ws) = length ws.
Proof.
  revert acc; induction ws as [|x ws IH]; intros acc; simpl; [|rewrite IH];
    reflexivity.
Qed.

Lemma accumulate_from_last (ws : list nat) (acc : nat) :
  ws <> [] ->
  exists l, rev (accumulate_from acc ws) = (acc + list_sum ws) :: l.
Proof.
  revert acc; induction ws as [|x ws IH]; intros acc H; [congruence|].
  simpl. destruct ws as [|y ws].
  - exists []. simpl. f_equal; lia.
  - destruct (IH (acc + x)) as [l Hl]; [discriminate|].
    exists (l ++ [acc + x]). rewrite Hl. simpl. f_equal; lia.
Qed.

Lemma bisect_pick (ctr : Counter) (acc x : nat) :
  x < total ctr ->
  nth_error (keys ctr)
    (bisect (removelast (accumulate_from acc (values ctr))) (acc + x)) =
  pick ctr x.
Proof.
  unfold total.
  revert acc x; induction ctr as [|[k v] rest IH]; intros acc x H; simpl in *.
  - lia.
  - destruct rest as [|[k' v'] rest'].
    + simpl in *. destruct (Nat.ltb_spec x v); [reflexivity | lia].
    + remember ((k', v') :: rest') as rest eqn:Er.
      assert (Hne : accumulate_from (acc + v) (values rest) <> []).
      { subst rest; simpl; discriminate. }
      destruct (accumulate_from (acc + v) (values rest)) as [|a l] eqn:Ea;
        [congruence|].
      simpl bisect.
      destruct (Nat.ltb_spec (acc + x) (acc + v));
        destruct (Nat.ltb_spec x v); try lia; [reflexivity|].
      simpl nth_error. rewrite <- (IH (acc + v) (x - v)) by lia.
      rewrite Ea. do 2 f_equal. lia.
Qed.

Lemma pick_In (ctr : Counter) (x : nat) (c : ascii) :
  pick ctr x = Some c -> In c (keys ctr).
Proof.
  revert x; induction ctr as [|[k v] rest IH]; intros x; simpl; [discriminate|].
  destruct (x <? v).
  - intros H; inversion H; left; reflexivity.
  - intros H; right; eapply IH; eauto.
Qed.

Lemma pick_Some (ctr : Counter) (x : nat) :
  x < total ctr -> exists c, pick ctr x = Some c.
Proof.
  unfold total.
  revert x; induction ctr as [|[k v] rest IH]; intros x H; simpl in *; [lia|].
  destruct (Nat.ltb_spec x v); [eauto|]. apply IH. lia.
Qed.

Lemma randbelow_pos (k : nat) (w : World) :
  0 < k -> randbelow k w = Ok (tape w (cursor w) mod k, draw w).
Proof. intros H. unfold randbelow. destruct k; [lia | reflexivity]. Qed.

(** A weighted draw over a counter of positive total weight reads one raw
    value [r] and returns the candidate the point [r mod total] falls on. *)
Lemma choices_pick (ctr : Counter) (w : World) :
  0 < total ctr ->
  exists c, pick ctr (tape w (cursor w) mod total ctr) = Some c /\
            choices (keys ctr) (values ctr) w = Ok (c, draw w).
Proof.
  intros Hpos.
  assert (Hne : values ctr <> []).
  { destruct ctr; [unfold total in Hpos; simpl in Hpos; lia | discriminate]. }
  set (x := tape w (cursor w) mod total ctr).
  assert (Hx : x < total ctr) by (apply Nat.mod_upper_bound; lia).
  destruct (pick_Some ctr x Hx) as [c Hc].
  exists c. split; [exact Hc|].
  unfold choices, accumulate.
  rewrite accumulate_from_length. unfold keys, values.
  rewrite !length_map, Nat.eqb_refl.
  destruct (accumulate_from_last (map snd ctr) 0 Hne) as [l Hl].
  rewrite Hl. fold (values ctr). fold (total ctr).
  change (0 + total ctr) with (total ctr).
  destruct (Nat.eqb_spec (total ctr) 0); [lia|].
  cbn [negb]. unfold bind. rewrite randbelow_pos by lia.
  fold x. pose proof (bisect_pick ctr 0 x Hx) as Hb.
  change (0 + x) with x in Hb. unfold keys in Hb. rewrite Hb, Hc.
  reflexivity.
Qed.

Lemma ctr_ok_total (corpus : str) (ctr : Counter) :
  ctr_ok corpus ctr -> 0 < total ctr.
Proof.
  intros (Hne & _ & Hall). destruct ctr as [|[k v] rest]; [congruence|].
  inversion Hall as [|? ? [Hv _] _]; subst. unfold total; simpl in *. lia.
Qed.

Lemma ctr_ok_In (corpus : str) (ctr : Counter) (c : ascii) :
  ctr_ok corpus ctr -> In c (keys ctr) -> In c corpus.
Proof.
  intros (_ & _ & Hall) Hc. apply in_map_iff in Hc.
  destruct Hc as ([k v] & <- & Hin).
  rewrite Forall_forall in Hall. apply (Hall _ Hin).
Qed.

Lemma ctr_get_notin (ctr : Counter) (c : ascii) :
  ~ In c (keys ctr) -> ctr_get ctr c = 0.
Proof.
  induction ctr as [|[k v] rest IH]; simpl; [reflexivity|].
  intros H. destruct (Ascii.eqb_spec k c); [tauto | apply IH; tauto].
Qed.

Lemma filter_const_length {A : Type} (f : A -> bool) (b : bool) (l : list A) :
  (forall x, In x l -> f x = b) ->
  length (filter f l) = if b then length l else 0.
Proof.
  induction l as [|x l IH]; intros H; simpl.
  - destruct b; reflexivity.
  - rewrite (H x) by (left; reflexivity).
    destruct b; simpl; rewrite IH by (intros; apply H; right; assumption);
      reflexivity.
Qed.

Lemma filter_shift_length (g : nat -> bool) (v len a : nat) :
  length (filter (fun x => g (x - v)) (seq (v + a) len)) =
  length (filter g (seq a len)).
Proof.
  revert a; induction len as [|len IH]; intros a; simpl; [reflexivity|].
  replace (v + a - v) with a by lia.
  replace (S (v + a)) with (v + S a) by lia.
  destruct (g a); simpl; rewrite IH; reflexivity.
Qed.

(** Each candidate owns as many points as its count: a uniform point gives
    a draw with probability proportional to the count. *)
Lemma points_on_count (ctr : Counter) (c : ascii) :
  NoDup (keys ctr) -> points_on ctr c = ctr_get ctr c.
Proof.
  unfold points_on, total.
  induction ctr as [|[k v] rest IH]; intros Hnd; [reflexivity|].
  simpl in Hnd. inversion Hnd as [|? ? Hk Hrest]; subst.
  simpl values. simpl list_sum. rewrite seq_app, filter_app, length_app.
  simpl Nat.add.
  rewrite (filter_const_length _ (Ascii.eqb k c) (seq 0 v)).
  2:{ intros x Hx. apply in_seq in Hx. simpl.
      destruct (Nat.ltb_spec x v); [reflexivity | lia]. }
  rewrite (filter_ext_in _
             (fun x => (fun y => match pick rest y with
                                 | Some k' => Ascii.eqb k' c
                                 | None => false
                                 end) (x - v))).
  2:{ intros x Hx. apply in_seq in Hx. simpl.
      destruct (Nat.ltb_spec x v); [lia | reflexivity]. }
  pose proof (filter_shift_length
                (fun y => match pick rest y with
                          | Some k' => Ascii.eqb k' c
                          | None => false
                          end) v (list_sum (values rest)) 0) as Hs.
  rewrite Nat.add_0_r in Hs. cbv beta in Hs. rewrite Hs, (IH Hrest).
  simpl ctr_get. rewrite length_seq.
  destruct (Ascii.eqb_spec k c) as [->|Hkc].
  - rewrite ctr_get_notin by exact Hk. lia.
  - reflexivity.
Qed.

Lemma choice_nth {A : Type} (l : list A) (w : World) :
  l <> [] ->
  exists a, nth_error l (tape w (cursor w) mod length l) = Some a /\
            choice l w = Ok (a, draw w).
Proof.
  intros Hne. destruct l as [|x l]; [congruence|].
  assert (Hlt : tape w (cursor w) mod length (x :: l) < length (x :: l))
    by (apply Nat.mod_upper_bound; simpl; lia).
  destruct (nth_error (x :: l) (tape w (cursor w) mod length (x :: l)))
    as [a|] eqn:E.
  - exists a. split; [reflexivity|].
    unfold choice, bind.
    rewrite randbelow_pos by (simpl; lia). rewrite E. reflexivity.
  - apply nth_error_None in E. lia.
Qed.

Lemma choice_nil {A : Type} (w : World) : choice (@nil A) w = Raise IndexError.
Proof. reflexivity. Qed.

(** ** Worlds *)

Lemma world_eq (w w' : World) :
  tape w = tape w' -> cursor w = cursor w' ->
  shortenings w = shortenings w' -> fallbacks w = fallbacks w' -> w = w'.
Proof. destruct w, w'; simpl; intros; subst; reflexivity. Qed.

Ltac world := apply world_eq; simpl; try reflexivity; lia.

Lemma advance_0 (w : World) : advance 0 0 0 w = w.
Proof. world. Qed.

Lemma advance_advance (d s f d' s' f' : nat) (w : World) :
  advance d' s' f' (advance d s f w) = advance (d + d') (s + s') (f + f') w.
Proof. world. Qed.

Lemma draw_advance (w : World) : draw w = advance 1 0 0 w.
Proof. world. Qed.

(** ** Sampling *)

Lemma slice_from_last (ctx : str) (N : nat) :
  1 <= N -> slice_from ctx (- Z.of_nat N) = skipn (length ctx - N) ctx.
Proof.
  intros H. unfold slice_from, clamp.
  destruct (Z.ltb_spec (- Z.of_nat N) 0); [|lia].
  f_equal. lia.
Qed.

Lemma slice_from_length (ctx : str) (N : nat) :
  1 <= N -> length (slice_from ctx (- Z.of_nat N)) <= N.
Proof.
  intros H. rewrite slice_from_last, length_skipn by exact H. lia.
Qed.

(** The loop returns at the first (longest) suffix found in the table,
    after as many shortenings as characters were dropped. *)
Lemma getitem_while_hit (t : Table) (j : nat) (pre : str) (ctr : Counter)
    (w : World) :
  j < length pre ->
  tbl_get t (skipn j pre) = Some ctr ->
  (forall i, i < j -> tbl_get t (skipn i pre) = None) ->
  getitem_while t pre w =
  (c <- choices (keys ctr) (values ctr) ;; ret (Some c)) (advance 0 j 0 w).
Proof.
  revert pre w; induction j as [|j IH]; intros pre w Hj Hhit Hmiss;
    destruct pre as [|x pre]; simpl in Hj; try lia.
  - simpl in Hhit. simpl getitem_while. rewrite Hhit, advance_0. reflexivity.
  - pose proof (Hmiss 0 ltac:(lia)) as H0. simpl in H0.
    simpl getitem_while. rewrite H0. unfold bind at 1, tick_shorten.
    rewrite (IH pre) ; [| lia | exact Hhit |].
    + f_equal. world.
    + intros i Hi. apply (Hmiss (S i)). lia.
Qed.

Lemma getitem_while_miss (t : Table) (pre : str) (w : World) :
  (forall i, i < length pre -> tbl_get t (skipn i pre) = None) ->
  getitem_while t pre w = Ok (None, advance 0 (length pre) 0 w).
Proof.
  revert w; induction pre as [|x pre IH]; intros w Hmiss.
  - simpl. rewrite advance_0. reflexivity.
  - pose proof (Hmiss 0 ltac:(simpl; lia)) as H0. simpl in H0.
    simpl getitem_while. rewrite H0. unfold bind, tick_shorten.
    rewrite IH.
    + do 2 f_equal. world.
    + intros i Hi. apply (Hmiss (S i)). simpl; lia.
Qed.

Lemma first_hit_dec (t : Table) (pre : str) :
  (exists j ctr, j < length pre /\ tbl_get t (skipn j pre) = Some ctr /\
                 forall i, i < j -> tbl_get t (skipn i pre) = None) \/
  (forall i, i < length pre -> tbl_get t (skipn i pre) = None).
Proof.
  induction pre as [|x pre IH].
  - right. simpl; intros; lia.
  - destruct (tbl_get t (x :: pre)) as [ctr|] eqn:E.
    + left. exists 0, ctr. simpl. repeat split; [lia | exact E | intros; lia].
    + destruct IH as [(j & ctr & Hj & Hhit & Hmiss)|Hmiss].
      * left. exists (S j), ctr. simpl. repeat split; [lia | exact Hhit |].
        intros [|i] Hi; [exact E | apply Hmiss; lia].
      * right. intros [|i] Hi; [exact E | apply Hmiss; simpl in Hi; lia].
Qed.

Lemma getitem_hit (corpus : str) (m : Ngram) (ctx : str) (j : nat)
    (ctr : Counter) (w : World) :
  tbl_ok corpus (table m) ->
  j < length (slice_from ctx (- n m)) ->
  tbl_get (table m) (skipn j (slice_from ctx (- n m))) = Some ctr ->
  (forall i, i < j ->
             tbl_get (table m) (skipn i (slice_from ctx (- n m))) = None) ->
  exists c, pick ctr (tape w (cursor w) mod total ctr) = Some c /\
            In c corpus /\
            Ngram_getitem m ctx w = Ok (c, advance 1 j 0 w).
Proof.
  intros Hok Hj Hhit Hmiss.
  destruct (tbl_get_ok _ _ _ _ Hok Hhit) as [_ Hctr].
  destruct (choices_pick ctr (advance 0 j 0 w) (ctr_ok_total _ _ Hctr))
    as (c & Hc & Hch).
  simpl in Hc. rewrite Nat.add_0_r in Hc.
  exists c. split; [exact Hc|]. split.
  - eapply ctr_ok_In; [exact Hctr | eapply pick_In; exact Hc].
  - unfold Ngram_getitem, bind at 1.
    rewrite (getitem_while_hit _ j _ ctr) by assumption.
    unfold bind. rewrite Hch. unfold ret. do 2 f_equal. world.
Qed.

Lemma getitem_miss (corpus : str) (m : Ngram) (ctx : str) (w : World) :
  tbl_ok corpus (table m) -> table m <> [] ->
  (forall i, i < length (slice_from ctx (- n m)) ->
             tbl_get (table m) (skipn i (slice_from ctx (- n m))) = None) ->
  exists k ctr c,
    nth_error (keys (table m)) (tape w (cursor w) mod length (table m)) = Some k /\
    tbl_get (table m) k = Some ctr /\
    pick ctr (tape w (S (cursor w)) mod total ctr) = Some c /\
    In c corpus /\
    Ngram_getitem m ctx w =
    Ok (c, advance 2 (length (slice_from ctx (- n m))) 1 w).
Proof.
  intros Hok Hne Hmiss.
  set (L := length (slice_from ctx (- n m))) in *.
  set (w1 := mkWorld (tape w) (cursor w) (shortenings w + L) (S (fallbacks w))).
  assert (Hkne : keys (table m) <> []).
  { destruct (table m); [congruence | discriminate]. }
  destruct (choice_nth (keys (table m)) w1 Hkne) as (k & Hk & Hch).
  assert (Hin : In k (keys (table m))) by (eapply nth_error_In; exact Hk).
  apply tbl_get_keys in Hin. destruct Hin as [ctr Hget].
  destruct (tbl_get_ok _ _ _ _ Hok Hget) as [_ Hctr].
  destruct (choices_pick ctr (draw w1) (ctr_ok_total _ _ Hctr))
    as (c & Hc & Hcs).
  exists k, ctr, c. unfold keys in Hk. rewrite length_map in Hk.
  split; [exact Hk|]. split; [exact Hget|]. split; [exact Hc|]. split.
  - eapply ctr_ok_In; [exact Hctr | eapply pick_In; exact Hc].
  - unfold Ngram_getitem, bind at 1.
    rewrite getitem_while_miss by assumption. fold L.
    unfold bind at 1, tick_fallback.
    replace (mkWorld _ _ _ _) with w1 by world.
    unfold bind. rewrite Hch, Hget, Hcs. do 2 f_equal. world.
Qed.

Lemma getitem_empty (m : Ngram) (ctx : str) (w : World) :
  table m = [] -> Ngram_getitem m ctx w = Raise IndexError.
Proof.
  intros E. unfold Ngram_getitem, bind at 1.
  rewrite getitem_while_miss.
  - rewrite E. reflexivity.
  - intros i _. rewrite E. reflexivity.
Qed.

(** On a well-formed non-empty table a sample always returns: a corpus
    character, after at most as many shortenings as the truncated context
    is long, one fallback at most, and one draw more than fallbacks. *)
Lemma getitem_total (corpus : str) (m : Ngram) (ctx : str) (w : World) :
  tbl_ok corpus (table m) -> table m <> [] ->
  exists c s f,
    Ngram_getitem m ctx w = Ok (c, advance (1 + f) s f w) /\
    In c corpus /\ s <= length (slice_from ctx (- n m)) /\ f <= 1.
Proof.
  intros Hok Hne.
  destruct (first_hit_dec (table m) (slice_from ctx (- n m)))
    as [(j & ctr & Hj & Hhit & Hmiss)|Hmiss].
  - destruct (getitem_hit corpus m ctx j ctr w Hok Hj Hhit Hmiss)
      as (c & _ & Hc & Hr).
    exists c, j, 0. repeat split; [exact Hr | exact Hc | lia | lia].
  - destruct (getitem_miss corpus m ctx w Hok Hne Hmiss)
      as (k & ctr & c & _ & _ & _ & Hc & Hr).
    exists c, (length (slice_from ctx (- n m))), 1.
    repeat split; [exact Hr | exact Hc | lia | lia].
Qed.

(** ** Phrases *)

Lemma bind_assoc {A B C : Type} (m : M A) (f : A -> M B) (g : B -> M C)
    (w : World) :
  bind (bind m f) g w = bind m (fun a => bind (f a) g) w.
Proof. unfold bind. destruct (m w) as [[a w']|e]; reflexivity. Qed.

Lemma bind_ext {A B : Type} (m : M A) (f g : A -> M B) (w : World) :
  (forall a w', f a w' = g a w') -> bind m f w = bind m g w.
Proof.
  intros H. unfold bind. destruct (m w) as [[a w']|e]; [apply H | reflexivity].
Qed.

Lemma phrase_for_total (corpus : str) (m : Ngram) :
  tbl_ok corpus (table m) -> table m <> [] ->
  forall (k : nat) (s : str) (w : World),
  exists out sh f,
    phrase_for m k s w = Ok (s ++ out, advance (k + f) sh f w) /\
    length out = k /\ Forall (fun c => In c corpus) out /\ f <= k.
Proof.
  intros Hok Hne. induction k as [|k IH]; intros s w.
  - exists [], 0, 0. simpl. rewrite app_nil_r, advance_0.
    repeat split; [constructor | lia].
  - destruct (getitem_total corpus m s w Hok Hne) as (c & s1 & f1 & Hg & Hc & _ & Hf1).
    destruct (IH (s ++ [c]) (advance (1 + f1) s1 f1 w)) as (out & s2 & f2 & Hp & Hl & Hall & Hf2).
    exists (c :: out), (s1 + s2), (f1 + f2).
    simpl phrase_for. unfold bind. rewrite Hg, Hp, advance_advance, <- app_assoc.
    simpl. repeat split; [ | lia | constructor; assumption | lia ].
    do 2 f_equal. world.
Qed.

(** One more iteration appends one more sample to the same phrase. *)
Lemma phrase_for_snoc (m : Ngram) (k : nat) (s : str) (w : World) :
  phrase_for m (S k) s w =
  (s' <- phrase_for m k s ;; c <- Ngram_getitem m s' ;; ret (s' ++ [c])) w.
Proof.
  revert s w; induction k as [|k IH]; intros s w.
  - reflexivity.
  - change (phrase_for m (S (S k)) s w)
      with ((c <- Ngram_getitem m s ;; phrase_for m (S k) (s ++ [c])) w).
    change (phrase_for m (S k) s)
      with (c <- Ngram_getitem m s ;; phrase_for m k (s ++ [c])).
    rewrite bind_assoc. apply bind_ext. intros c w'. apply IH.
Qed.

Lemma phrase_for_empty (m : Ngram) (k : nat) (s : str) (w : World) :
  table m = [] -> phrase_for m (S k) s w = Raise IndexError.
Proof.
  intros E. simpl. unfold bind. rewrite getitem_empty by exact E. reflexivity.
Qed.

(** ** The template loop, position by position *)

Lemma pop_rev {A : Type} (p : A) (s : list A) :
  pop (rev (p :: s)) = Ok (p, rev s).
Proof. unfold pop. rewrite rev_involutive. reflexivity. Qed.

Lemma emitted_cons (c : ascii) (T s : str) (tp : nat -> nat) (cur i : nat) :
  emitted (c :: T) s tp cur (S i) =
  emitted T (if is_letter_directive c then tl s else s) tp
          (cur + if is_random_directive c then 1 else 0) i.
Proof.
  unfold emitted, letters, randoms. simpl nth_error. simpl firstn. simpl filter.
  destruct (nth_error T i) as [c'|]; [|reflexivity].
  f_equal.
  - destruct (is_letter_directive c); [|reflexivity].
    destruct s; simpl; [|reflexivity].
    destruct (length _); reflexivity.
  - f_equal. destruct (is_random_directive c); simpl; lia.
Qed.

(** One iteration of the loop. *)
Lemma template_for_step (c : ascii) (T s : str) (pwd : list str) (w : World) :
  (is_letter_directive c = true -> s <> []) ->
  exists e,
    emit c (nth_error s 0) (tape w (cursor w)) = Some e /\
    template_for (c :: T) (rev s) pwd w =
    template_for T (rev (if is_letter_directive c then tl s else s))
      (pwd ++ [[e]])
      (advance (if is_random_directive c then 1 else 0) 0 0 w).
Proof.
  intros Hs. unfold emit, is_letter_directive, is_random_directive in *.
  cbn [template_for].
  destruct (Ascii.eqb c "u") eqn:Eu; [|destruct (Ascii.eqb c "l") eqn:El;
    [|destruct (Ascii.eqb c "m") eqn:Em]].
  1-3: destruct s as [|p s]; [exfalso; apply Hs; reflexivity|].
  1-3: apply Ascii.eqb_eq in Eu || apply Ascii.eqb_eq in El
       || apply Ascii.eqb_eq in Em; subst c.
  - exists (upper p). split; [reflexivity|].
    unfold bind, lift. rewrite pop_rev. cbn [fst snd].
    simpl tl. rewrite advance_0. reflexivity.
  - exists p. split; [reflexivity|].
    unfold bind, lift. rewrite pop_rev. cbn [fst snd].
    simpl tl. rewrite advance_0. reflexivity.
  - destruct (choice_nth [lower p; upper p] w ltac:(discriminate))
      as (e & He & Hch).
    exists e. split; [exact He|].
    unfold bind at 1, lift. rewrite pop_rev. cbn [fst snd].
    unfold bind. rewrite Hch, draw_advance. reflexivity.
  - cbn [orb]. destruct (Ascii.eqb c "d") eqn:Ed; [|destruct (Ascii.eqb c "p") eqn:Ep].
    + destruct (choice_nth digits w ltac:(discriminate)) as (e & He & Hch).
      exists e. split; [exact He|].
      unfold bind. rewrite Hch, draw_advance. reflexivity.
    + destruct (choice_nth punctuation w ltac:(discriminate)) as (e & He & Hch).
      exists e. split; [exact He|].
      unfold bind. rewrite Hch, draw_advance. reflexivity.
    + exists c. split; [reflexivity|]. rewrite advance_0. reflexivity.
Qed.

Lemma letters_cons (c : ascii) (T : str) :
  letters (c :: T) = (if is_letter_directive c then 1 else 0) + letters T.
Proof. unfold letters. simpl. destruct (is_letter_directive c); reflexivity. Qed.

Lemma randoms_cons (c : ascii) (T : str) :
  randoms (c :: T) = (if is_random_directive c then 1 else 0) + randoms T.
Proof. unfold randoms. simpl. destruct (is_random_directive c); reflexivity. Qed.

Lemma letters_le (T : str) : letters T <= length T.
Proof. unfold letters. apply filter_length_le. Qed.

(** The loop never fails when the phrase holds a letter per letter
    directive; it emits one character per template position, the one
    [emitted] describes, and draws once per random directive. *)
Lemma template_for_emitted (T s : str) (pwd : list str) (w : World) :
  letters T <= length s ->
  exists out,
    template_for T (rev s) pwd w =
      Ok (pwd ++ map (fun e => [e]) out, advance (randoms T) 0 0 w) /\
    length out = length T /\
    forall i, i < length T ->
              nth_error out i = emitted T s (tape w) (cursor w) i.
Proof.
  revert s pwd w; induction T as [|c T IH]; intros s pwd w Hlen.
  - exists []. simpl. rewrite app_nil_r, advance_0.
    repeat split. intros; lia.
  - rewrite letters_cons in Hlen.
    destruct (template_for_step c T s pwd w) as (e & He & Hstep).
    { intros Hc. rewrite Hc in Hlen. destruct s; simpl in Hlen; [lia | discriminate]. }
    set (s' := if is_letter_directive c then tl s else s) in *.
    set (w' := advance (if is_random_directive c then 1 else 0) 0 0 w) in *.
    destruct (IH s' (pwd ++ [[e]]) w') as (out & Hout & Hl & Hpos).
    { subst s'. destruct (is_letter_directive c); [|lia].
      destruct s; simpl in *; lia. }
    exists (e :: out). split; [|split].
    + rewrite Hstep, Hout, <- app_assoc. simpl. do 2 f_equal.
      subst w'. rewrite advance_advance, randoms_cons. world.
    + simpl; lia.
    + intros [|i] Hi.
      * simpl. unfold emitted. simpl. rewrite Nat.add_0_r.
        unfold letters; simpl. symmetry; exact He.
      * simpl nth_error. rewrite emitted_cons. simpl in Hi.
        rewrite Hpos by lia. reflexivity.
Qed.

Lemma concat_singletons {A : Type} (l : list A) :
  concat (map (fun e => [e]) l) = l.
Proof. induction l as [|x l IH]; simpl; [|rewrite IH]; reflexivity. Qed.

(** [generate_password] on a well-formed non-empty table: the phrase is
    generated first, with one corpus letter per template position; then
    each position emits what [emitted] describes. *)
Lemma generate_password_emitted (corpus : str) (m : Ngram) (T : str)
    (w : World) :
  tbl_ok corpus (table m) -> table m <> [] ->
  exists s pwd d sh f,
    Ngram_phrase m (Z.of_nat (length T)) w = Ok (s, advance d sh f w) /\
    length s = length T /\ Forall (fun c => In c corpus) s /\
    generate_password m T w = Ok (pwd, advance (d + randoms T) sh f w) /\
    length pwd = length T /\
    forall i, i < length T ->
              nth_error pwd i = emitted T s (tape w) (cursor w + d) i.
Proof.
  intros Hok Hne.
  destruct (phrase_for_total corpus m Hok Hne (length T) [] w)
    as (s & sh & f & Hp & Hl & Hall & _).
  simpl in Hp.
  destruct (template_for_emitted T s [] (advance (length T + f) sh f w))
    as (out & Hout & Hlo & Hpos).
  { rewrite Hl. apply letters_le. }
  exists s, out, (length T + f), sh, f.
  assert (HP : Ngram_phrase m (Z.of_nat (length T)) w =
               Ok (s, advance (length T + f) sh f w)).
  { unfold Ngram_phrase. rewrite Nat2Z.id. exact Hp. }
  repeat split; try assumption.
  unfold generate_password, bind at 1. rewrite HP.
  unfold bind. rewrite Hout. simpl app. rewrite concat_singletons.
  unfold ret. do 2 f_equal. world.
Qed.

(** ** Observations: suffixes, pooling, emptiness *)

Lemma suffixes_length (ctx s : str) :
  In s (suffixes ctx) -> 1 <= length s <= length ctx.
Proof.
  induction ctx as [|x ctx IH]; simpl; [tauto|].
  intros [<-|H]; simpl; [lia|]. apply IH in H. lia.
Qed.

Lemma ends_with_cons (x : ascii) (ctx k : str) :
  k <> x :: ctx -> ends_with (x :: ctx) k = ends_with ctx k.
Proof.
  intros Hk. unfold ends_with. simpl length.
  destruct (Nat.leb_spec (length k) (length ctx)) as [Hle|Hgt].
  - destruct (Nat.leb_spec (length k) (S (length ctx))); [|lia].
    replace (S (length ctx) - length k) with (S (length ctx - length k)) by lia.
    reflexivity.
  - destruct (Nat.leb_spec (length k) (S (length ctx))) as [Hle|]; [|reflexivity].
    replace (S (length ctx) - length k) with 0 by lia.
    change (skipn 0 (x :: ctx)) with (x :: ctx).
    apply str_eqb_neq. congruence.
Qed.

Lemma ends_with_refl (ctx : str) : ends_with ctx ctx = true.
Proof.
  unfold ends_with. rewrite Nat.leb_refl, Nat.sub_diag. apply str_eqb_refl.
Qed.

Lemma ends_with_length (ctx k : str) :
  ends_with ctx k = true -> length k <= length ctx.
Proof.
  unfold ends_with. destruct (Nat.leb_spec (length k) (length ctx)); [lia|].
  discriminate.
Qed.

(** A window records a context once when it ends with it, never twice. *)
Lemma count_suffixes (ctx k : str) :
  k <> [] ->
  length (filter (fun s => str_eqb s k) (suffixes ctx)) =
  if ends_with ctx k then 1 else 0.
Proof.
  intros Hk. induction ctx as [|x ctx IH]; cbn [suffixes filter].
  - destruct (ends_with [] k) eqn:E; [|reflexivity].
    apply ends_with_length in E. destruct k; [congruence | simpl in E; lia].
  - destruct (str_eqb (x :: ctx) k) eqn:E.
    + apply str_eqb_eq in E; subst k. rewrite ends_with_refl.
      cbn [length]. rewrite IH.
      destruct (ends_with ctx (x :: ctx)) eqn:E'; [|reflexivity].
      apply ends_with_length in E'. simpl in E'. lia.
    + apply str_eqb_neq in E. rewrite ends_with_cons by congruence. exact IH.
Qed.

Lemma count_obs_window (corpus : str) (n i : nat) (k : str) (c : ascii) :
  k <> [] ->
  count_obs (window_obs corpus n i) k c =
  if ends_with (window corpus n i) k && follows corpus n i c then 1 else 0.
Proof.
  intros Hk. unfold count_obs, window_obs, follows.
  destruct (nth_error corpus (i + n)) as [nxt|].
  2:{ rewrite andb_false_r; reflexivity. }
  destruct (Ascii.eqb nxt c) eqn:E.
  - rewrite andb_true_r, <- (count_suffixes _ _ Hk).
    generalize (suffixes (window corpus n i)) as l.
    induction l as [|s l IH]; [reflexivity|].
    cbn [map filter fst snd]. rewrite E, andb_true_r.
    destruct (str_eqb s k); cbn [length]; rewrite IH; reflexivity.
  - rewrite andb_false_r.
    rewrite (filter_const_length _ false); [reflexivity|].
    intros o Ho. apply in_map_iff in Ho. destruct Ho as (s & <- & _).
    cbn [fst snd]. rewrite E. apply andb_false_r.
Qed.

(** Counts add up over the windows: the count of (k, c) is the number of
    windows that end with [k] and are followed by [c]. *)
Lemma count_obs_pooled (corpus : str) (n : nat) (k : str) (c : ascii)
    (idx : list nat) :
  k <> [] ->
  count_obs (flat_map (window_obs corpus n) idx) k c =
  length (filter (fun i => ends_with (window corpus n i) k && follows corpus n i c)
                 idx).
Proof.
  intros Hk. induction idx as [|i idx IH]; simpl; [reflexivity|].
  rewrite count_obs_app, IH, (count_obs_window _ _ _ _ _ Hk).
  destruct (ends_with _ _ && follows _ _ _ _); reflexivity.
Qed.

Lemma observations_keys (corpus : str) (n : nat) (k : str) :
  In k (map fst (observations corpus n)) -> 1 <= length k <= n.
Proof.
  intros H. apply in_map_iff in H. destruct H as ([s c] & <- & H).
  unfold observations in H. apply in_flat_map in H.
  destruct H as (i & _ & H). unfold window_obs in H.
  destruct (nth_error corpus (i + n)); [|destruct H].
  apply in_map_iff in H. destruct H as (s' & E & H). inversion E; subst.
  apply suffixes_length in H. unfold window in H.
  rewrite length_firstn in H. simpl. lia.
Qed.

Lemma observations_nil (corpus : str) (n : nat) :
  observations corpus n = [] <-> length corpus <= n \/ n = 0.
Proof.
  unfold observations. split.
  - intros H. destruct (Nat.le_gt_cases (length corpus) n) as [|Hlt]; [tauto|].
    destruct n as [|n]; [tauto|]. exfalso.
    destruct (length corpus - S n) as [|k] eqn:E; [lia|].
    simpl in H. apply app_eq_nil in H. destruct H as [H _].
    unfold window_obs, window in H.
    destruct (nth_error corpus (0 + S n)) eqn:E'.
    + destruct corpus; simpl in *; [lia | discriminate].
    + apply nth_error_None in E'. lia.
  - intros [H| ->].
    + replace (length corpus - n) with 0 by lia. reflexivity.
    + generalize (seq 0 (length corpus - 0)) as l.
      induction l as [|i l IH]; simpl; [reflexivity|]. rewrite IH.
      unfold window_obs, window. simpl.
      destruct (nth_error corpus (i + 0)); reflexivity.
Qed.

Lemma record_nil (obs : list (str * ascii)) :
  record [] obs = [] <-> obs = [].
Proof.
  split; [|intros ->; reflexivity].
  destruct obs as [|[s c] obs]; [reflexivity|]. intros H. exfalso.
  assert (Hin : In s (keys (record [] ((s, c) :: obs)))).
  { apply record_keys_In. right. left. reflexivity. }
  rewrite H in Hin. destruct Hin.
Qed.

(** Under the precondition of the build the table has an entry. *)
Lemma Ngram_init_valid (corpus : str) (order : Z) (m : Ngram) :
  (1 <= order < Z.of_nat (length corpus))%Z ->
  Ngram_init corpus order = Ok m ->
  tbl_ok corpus (table m) /\ table m <> [] /\ n m = order.
Proof.
  intros Hn H. destruct (Ngram_init_ok _ _ _ H) as [Hok Hnm].
  split; [exact Hok|]. split; [|exact Hnm].
  rewrite <- (Z2Nat.id order), Ngram_init_nat in H by lia.
  inversion H; subst; simpl. rewrite record_nil, observations_nil. lia.
Qed.

Lemma Ngram_init_valid_ex (corpus : str) (n : Z) :
  (1 <= n < Z.of_nat (length corpus))%Z -> exists m, Ngram_init corpus n = Ok m.
Proof.
  intros Hn. rewrite <- (Z2Nat.id n), Ngram_init_nat by lia. eauto.
Qed.

(** ** Prefixes of a template *)

Lemma firstn_S_nth {A : Type} (l : list A) (i : nat) (c : A) :
  nth_error l i = Some c -> firstn (S i) l = firstn i l ++ [c].
Proof.
  revert i; induction l as [|x l IH]; intros [|i] H; simpl in *;
    try discriminate.
  - inversion H; reflexivity.
  - f_equal. apply IH. exact H.
Qed.

Lemma letters_firstn_S (T : str) (i : nat) (c : ascii) :
  nth_error T i = Some c ->
  letters (firstn (S i) T) =
  letters (firstn i T) + if is_letter_directive c then 1 else 0.
Proof.
  intros H. rewrite (firstn_S_nth _ _ _ H). unfold letters.
  rewrite filter_app, length_app. simpl.
  destruct (is_letter_directive c); reflexivity.
Qed.

Lemma letters_firstn_lt (T : str) (i : nat) (c : ascii) :
  nth_error T i = Some c -> is_letter_directive c = true ->
  letters (firstn i T) < length T.
Proof.
  intros H Hc. pose proof (letters_firstn_S T i c H) as E. rewrite Hc in E.
  pose proof (letters_le (firstn (S i) T)) as Hle.
  rewrite length_firstn in Hle. lia.
Qed.

Lemma nth_error_pair {A : Type} (a b : A) (r : nat) :
  nth_error [a; b] (r mod 2) = Some (if r mod 2 =? 0 then a else b).
Proof.
  pose proof (Nat.mod_upper_bound r 2 ltac:(lia)) as H.
  destruct (r mod 2) as [|[|k]]; simpl; try reflexivity. lia.
Qed.

Lemma is_directive_false (c : ascii) :
  is_directive c = false ->
  Ascii.eqb c "u" = false /\ Ascii.eqb c "l" = false /\
  Ascii.eqb c "m" = false /\ Ascii.eqb c "d" = false /\
  Ascii.eqb c "p" = false.
Proof.
  unfold is_directive, is_letter_directive, is_random_directive.
  destruct (Ascii.eqb c "u"), (Ascii.eqb c "l"), (Ascii.eqb c "m"),
    (Ascii.eqb c "d"), (Ascii.eqb c "p"); simpl; intros H;
    try discriminate; repeat split.
Qed.

Lemma letters_repeat_l (i k : nat) :
  i <= k -> letters (firstn i (repeat "l"%char k)) = i.
Proof.
  revert k; induction i as [|i IH]; intros [|k] H; simpl; try reflexivity;
    try lia.
  rewrite letters_cons. simpl. f_equal. apply IH. lia.
Qed.

Lemma randoms_repeat_l (k : nat) : randoms (repeat "l"%char k) = 0.
Proof. induction k as [|k IH]; [reflexivity|]. simpl. rewrite randoms_cons. exact IH. Qed.

Lemma randoms_firstn_le (T : str) (a b : nat) :
  a <= b -> randoms (firstn a T) <= randoms (firstn b T).
Proof.
  revert a b; induction T as [|c T IH]; intros [|a] [|b] H; simpl;
    try lia; rewrite ?randoms_cons.
  - unfold randoms; simpl; lia.
  - specialize (IH a b ltac:(lia)). lia.
Qed.

(** A random directive reads a draw no later position reads again. *)
Lemma randoms_firstn_lt (T : str) (i j : nat) (c : ascii) :
  nth_error T i = Some c -> is_random_directive c = true -> i < j ->
  randoms (firstn i T) < randoms (firstn j T).
Proof.
  intros Hi Hc Hij.
  pose proof (randoms_firstn_le T (S i) j ltac:(lia)) as Hle.
  rewrite (firstn_S_nth _ _ _ Hi) in Hle. unfold randoms in *.
  rewrite filter_app, length_app in Hle. simpl in Hle. rewrite Hc in Hle.
  simpl in Hle. lia.
Qed.

(** ** Orders below zero *)

Lemma index_in_range (corpus : str) (j : Z) :
  (- Z.of_nat (length corpus) <= j < Z.of_nat (length corpus))%Z ->
  exists c, index corpus j = Ok c.
Proof.
  intros H. unfold index.
  set (j' := if (j <? 0)%Z then (j + Z.of_nat (length corpus))%Z else j).
  assert (Hj : (0 <= j' < Z.of_nat (length corpus))%Z).
  { subst j'. destruct (Z.ltb_spec j 0); lia. }
  destruct (Z.leb_spec 0 j'); [|lia].
  destruct (Z.ltb_spec j' (Z.of_nat (length corpus))); [|lia]. simpl.
  destruct (nth_error corpus (Z.to_nat j')) eqn:E; [eauto|].
  apply nth_error_None in E. lia.
Qed.

Lemma index_out_of_range (corpus : str) (j : Z) :
  (j < - Z.of_nat (length corpus))%Z -> index corpus j = Raise IndexError.
Proof.
  intros H. unfold index.
  destruct (Z.ltb_spec j 0); [|lia].
  destruct (Z.leb_spec 0 (j + Z.of_nat (length corpus))); [lia|]. reflexivity.
Qed.

Lemma init_for_in_range (corpus : str) (n : Z) (idx : list Z) (t : Table) :
  (forall i, In i idx ->
     (- Z.of_nat (length corpus) <= i + n < Z.of_nat (length corpus))%Z) ->
  exists t', init_for corpus n idx t = Ok t'.
Proof.
  revert t; induction idx as [|i idx IH]; intros t H; simpl; [eauto|].
  destruct (index_in_range corpus (i + n)) as [c Hc].
  { apply H. left; reflexivity. }
  rewrite Hc. apply IH. intros; apply H; right; assumption.
Qed.

(** With an order below zero the construction raises, [IndexError], exactly
    when the corpus is shorter than the order's absolute value. *)
Lemma Ngram_init_negative_order (corpus : str) (n : Z) :
  (n < 0)%Z ->
  ((Z.of_nat (length corpus) < - n)%Z ->
   Ngram_init corpus n = Raise IndexError) /\
  ((- n <= Z.of_nat (length corpus))%Z ->
   exists m, Ngram_init corpus n = Ok m).
Proof.
  intros Hn. unfold Ngram_init. rewrite range_nat. split; intros H.
  - destruct (Z.to_nat (Z.of_nat (length corpus) - n)) as [|k] eqn:E; [lia|].
    simpl. rewrite index_out_of_range by lia. reflexivity.
  - destruct (init_for_in_range corpus n
                (map Z.of_nat (seq 0 (Z.to_nat (Z.of_nat (length corpus) - n)))) [])
      as [t Ht].
    + intros i Hi. apply in_map_iff in Hi. destruct Hi as (k & <- & Hk).
      apply in_seq in Hk. lia.
    + rewrite Ht. eauto.
Qed.

(** ** Concrete runs *)

Example init_abcab :
  Ngram_init (s_ "abcab") 2 =
  Ok (mkNgram [(s_ "ab", [("c"%char, 1)]); (s_ "b", [("c"%char, 1)]);
               (s_ "bc", [("a"%char, 1)]); (s_ "c", [("a"%char, 1)]);
               (s_ "ca", [("b"%char, 1)]); (s_ "a", [("b"%char, 1)])] 2).
Proof. reflexivity. Qed.

Example init_aabab :
  Ngram_init (s_ "aabab") 1 =
  Ok (mkNgram [(s_ "a", [("a"%char, 1); ("b"%char, 2)]);
               (s_ "b", [("a"%char, 1)])] 1).
Proof. reflexivity. Qed.

Example init_order_minus_one :
  Ngram_init (s_ "ab") (-1) = Ok (mkNgram [(s_ "a", [("b"%char, 1)])] (-1)) /\
  Ngram_init (s_ "ab") (-3) = Raise IndexError.
Proof. split; reflexivity. Qed.

Example sample_backs_off :
  match Ngram_getitem
          (mkNgram [(s_ "ab", [("c"%char, 1)]); (s_ "b", [("c"%char, 1)])] 2)
          (s_ "zzxb") (mkWorld (fun i => i) 0 0 0) with
  | Ok (c, w) => Some (c, cursor w, shortenings w, fallbacks w)
  | Raise _ => None
  end = Some ("c"%char, 1, 1, 0).
Proof. reflexivity. Qed.

Example sample_weighted :
  map (fun r =>
         match Ngram_getitem
                 (mkNgram [(s_ "a", [("a"%char, 1); ("b"%char, 2)]);
                           (s_ "b", [("a"%char, 1)])] 1)
                 (s_ "a") (mkWorld (fun _ => r) 0 0 0) with
         | Ok (c, _) => Some c
         | Raise _ => None
         end) [0; 1; 2] =
  [Some "a"; Some "b"; Some "b"]%char.
Proof. reflexivity. Qed.

Example sample_falls_back :
  match Ngram_getitem
          (mkNgram [(s_ "ab", [("c"%char, 1)]); (s_ "b", [("c"%char, 1)])] 2)
          (s_ "zz") (mkWorld (fun i => i) 0 0 0) with
  | Ok (c, w) => Some (c, cursor w, shortenings w, fallbacks w)
  | Raise _ => None
  end = Some ("c"%char, 2, 2, 1).
Proof. reflexivity. Qed.

Example password_run :
  match generate_password
          (mkNgram [(s_ "a", [("a"%char, 1); ("b"%char, 2)]);
                    (s_ "b", [("a"%char, 1)])] 1)
          (s_ "ulmdpX-9") (mkWorld (fun i => 7 * i + 3) 0 0 0) with
  | Ok (pwd, w) => Some (string_of_list_ascii pwd, cursor w)
  | Raise _ => None
  end = Some ("Aba3-X-9"%string, 12).
Proof. reflexivity. Qed.

(** * The claims *)

(** C1: for a model built from an ASCII corpus longer than its order
    [n >= 1] and any template [T], [generate_password] returns, without
    error, a
    string of the length of [T]; on the empty template it returns the
    empty string (and touches nothing). *)
Theorem C1_generate_password_total (corpus : str) (n : Z) (m : Ngram)
    (T : str) (w : World) :
  (1 <= n < Z.of_nat (length corpus))%Z ->
  Forall is_ascii corpus ->
  Ngram_init corpus n = Ok m ->
  (exists pwd w', generate_password m T w = Ok (pwd, w') /\
                  length pwd = length T) /\
  generate_password m [] w = Ok ([], w).
Proof.
  intros Hn _ Hm. split; [|reflexivity].
  destruct (Ngram_init_valid _ _ _ Hn Hm) as (Hok & Hne & _).
  destruct (generate_password_emitted corpus m T w Hok Hne)
    as (s & pwd & d & sh & f & _ & _ & _ & Hg & Hl & _).
  eauto.
Qed.

Lemma C1_witness :
  (exists pwd w',
     generate_password (mkNgram [(s_ "a", [("b"%char, 1)])] 1) (s_ "ld-X")
       (mkWorld (fun i => i) 0 0 0) = Ok (pwd, w') /\
     length pwd = length (s_ "ld-X")) /\
  generate_password (mkNgram [(s_ "a", [("b"%char, 1)])] 1) []
    (mkWorld (fun i => i) 0 0 0) = Ok ([], mkWorld (fun i => i) 0 0 0).
Proof.
  apply (C1_generate_password_total (s_ "ab") 1);
    [simpl; lia | repeat constructor | reflexivity].
Defined.

(** C2: construction from [(corpus, n)] folds, window after window for
    the start indices [0 .. len(corpus) - n - 1], one increment of
    [table[suffix][next]] per non-empty suffix of the window.  Hence every
    count is the number of such observations (counts add up across
    windows); a context pools one observation from every window that ends
    with it; the keys are distinct and have lengths [1 .. n]. *)
Theorem C2_construction_counts (corpus : str) (n : nat) :
  exists m,
    Ngram_init corpus (Z.of_nat n) = Ok m /\
    table m = record [] (observations corpus n) /\
    (forall k c, tbl_count (table m) k c = count_obs (observations corpus n) k c) /\
    (forall k c, k <> [] ->
       tbl_count (table m) k c =
       length (filter (fun i => ends_with (window corpus n i) k &&
                                follows corpus n i c)
                      (seq 0 (length corpus - n)))) /\
    (forall k, In k (keys (table m)) -> 1 <= length k <= n) /\
    NoDup (keys (table m)).
Proof.
  eexists. split; [apply Ngram_init_nat|]. simpl.
  split; [reflexivity|]. split; [|split; [|split]].
  - intros k c. rewrite tbl_count_record. reflexivity.
  - intros k c Hk. rewrite tbl_count_record. unfold observations.
    rewrite count_obs_pooled by exact Hk. reflexivity.
  - intros k Hk. apply record_keys_In in Hk. destruct Hk as [[]|Hk].
    apply observations_keys in Hk. exact Hk.
  - pose proof (Ngram_init_ok corpus (Z.of_nat n) _ (Ngram_init_nat corpus n))
      as [[Hnd _] _].
    exact Hnd.
Qed.

(** C4, as the code has it: construction raises no error for any corpus
    and any order [n >= 0]; it returns a model whose table is empty exactly
    when [len(corpus) <= n] or [n = 0], and on such a model the error comes
    from the later generation call: every sample raises [IndexError]. *)
Theorem C4_construction_raises_nothing (corpus : str) (n : nat) :
  exists m,
    Ngram_init corpus (Z.of_nat n) = Ok m /\
    (table m = [] <-> length corpus <= n \/ n = 0) /\
    (table m = [] ->
     forall ctx w, Ngram_getitem m ctx w = Raise IndexError).
Proof.
  eexists. split; [apply Ngram_init_nat|]. simpl. split.
  - rewrite record_nil. apply observations_nil.
  - intros E ctx w. apply getitem_empty. exact E.
Qed.

(** C4, as stated, fails: with [len(corpus) <= order] (corpus "a", order
    1) and with [order < 1] (corpus "ab", order 0) construction returns a
    model instead of raising. *)
Lemma C4_counterexample :
  (Z.of_nat (length (s_ "a")) <= 1)%Z /\
  Ngram_init (s_ "a") 1 = Ok (mkNgram [] 1) /\
  (0 < 1)%Z /\
  Ngram_init (s_ "ab") 0 = Ok (mkNgram [] 0).
Proof. repeat split; try reflexivity; simpl; lia. Qed.

(** C9: for a corpus longer than the order [n >= 1] construction returns
    a model with a non-empty table, and every sample on it returns: after
    at most [n] shortenings, at most one fallback, and one draw plus one
    per fallback. *)
Theorem C9_sample_terminates (corpus : str) (n : Z) :
  (1 <= n < Z.of_nat (length corpus))%Z ->
  exists m,
    Ngram_init corpus n = Ok m /\ table m <> [] /\
    forall ctx w, exists c s f,
      Ngram_getitem m ctx w = Ok (c, advance (1 + f) s f w) /\
      (Z.of_nat s <= n)%Z /\ f <= 1.
Proof.
  intros Hn. destruct (Ngram_init_valid_ex corpus n Hn) as [m Hm].
  destruct (Ngram_init_valid _ _ _ Hn Hm) as (Hok & Hne & Hnm).
  exists m. repeat split; [exact Hm | exact Hne |].
  intros ctx w.
  destruct (getitem_total corpus m ctx w Hok Hne) as (c & s & f & Hg & _ & Hs & Hf).
  exists c, s, f. repeat split; [exact Hg | | exact Hf].
  rewrite Hnm, <- (Z2Nat.id n) in Hs by lia.
  pose proof (slice_from_length ctx (Z.to_nat n) ltac:(lia)). lia.
Qed.

Lemma C9_witness :
  exists m,
    Ngram_init (s_ "abcab") 2 = Ok m /\ table m <> [] /\
    forall ctx w, exists c s f,
      Ngram_getitem m ctx w = Ok (c, advance (1 + f) s f w) /\
      (Z.of_nat s <= 2)%Z /\ f <= 1.
Proof. apply (C9_sample_terminates (s_ "abcab") 2). simpl; lia. Defined.

(** C10: when [len(corpus) <= n] construction still returns, a model with
    an empty table; on it every sample raises [IndexError] at the
    fallback's [choice] over no key, and so do [phrase] for a positive
    length and [generate_password] for every non-empty template, those
    holding 'u', 'l' or 'm' among them.  On any constructed model a sample
    raises exactly when the table is empty. *)
Theorem C10_empty_table_fails (corpus : str) (n : Z) :
  (Z.of_nat (length corpus) <= n)%Z ->
  Ngram_init corpus n = Ok (mkNgram [] n) /\
  (forall ctx w, Ngram_getitem (mkNgram [] n) ctx w = Raise IndexError) /\
  (forall k w, Ngram_phrase (mkNgram [] n) (Z.of_nat (S k)) w = Raise IndexError) /\
  (forall T w, T <> [] ->
     generate_password (mkNgram [] n) T w = Raise IndexError) /\
  (forall T w c, In c T -> is_letter_directive c = true ->
     generate_password (mkNgram [] n) T w = Raise IndexError) /\
  (forall corpus' n' m', Ngram_init corpus' n' = Ok m' ->
     (table m' = [] ->
      forall ctx w, Ngram_getitem m' ctx w = Raise IndexError) /\
     (table m' <> [] ->
      forall ctx w, exists c w', Ngram_getitem m' ctx w = Ok (c, w'))).
Proof.
  intros Hn.
  assert (Hgp : forall T w, T <> [] ->
            generate_password (mkNgram [] n) T w = Raise IndexError).
  { intros T w HT. unfold generate_password, bind, Ngram_phrase.
    rewrite Nat2Z.id. destruct T as [|c T]; [congruence|].
    simpl length. rewrite phrase_for_empty by reflexivity. reflexivity. }
  split; [|split; [|split; [|split; [|split]]]].
  - rewrite <- (Z2Nat.id n), Ngram_init_nat by lia.
    do 2 f_equal. apply record_nil, observations_nil. lia.
  - intros ctx w. apply getitem_empty. reflexivity.
  - intros k w. unfold Ngram_phrase. rewrite Nat2Z.id.
    apply phrase_for_empty. reflexivity.
  - exact Hgp.
  - intros T w c Hc _. apply Hgp. intros ->. destruct Hc.
  - intros corpus' n' m' Hm'. split.
    + intros E ctx w. apply getitem_empty. exact E.
    + intros Hne ctx w. destruct (Ngram_init_ok _ _ _ Hm') as [Hok _].
      destruct (getitem_total corpus' m' ctx w Hok Hne) as (c & s & f & Hg & _).
      eauto.
Qed.

Lemma C10_witness :
  Ngram_init (s_ "ab") 2 = Ok (mkNgram [] 2) /\
  (forall ctx w, Ngram_getitem (mkNgram [] 2) ctx w = Raise IndexError) /\
  (forall k w, Ngram_phrase (mkNgram [] 2) (Z.of_nat (S k)) w = Raise IndexError) /\
  (forall T w, T <> [] ->
     generate_password (mkNgram [] 2) T w = Raise IndexError) /\
  (forall T w c, In c T -> is_letter_directive c = true ->
     generate_password (mkNgram [] 2) T w = Raise IndexError) /\
  (forall corpus' n' m', Ngram_init corpus' n' = Ok m' ->
     (table m' = [] ->
      forall ctx w, Ngram_getitem m' ctx w = Raise IndexError) /\
     (table m' <> [] ->
      forall ctx w, exists c w', Ngram_getitem m' ctx w = Ok (c, w'))).
Proof. apply (C10_empty_table_fails (s_ "ab") 2). simpl; lia. Defined.

(** C3: a sample first truncates the context to its last [n] characters
    [pre].  If some non-empty suffix of [pre] is a key, the longest one
    (reached after dropping [j] leading characters, one shortening each)
    decides: the result is a weighted draw over its counter, each
    candidate owning as many of the [total] equally likely points as its
    count, and no fallback is taken.  Only if no suffix is a key does the
    sample fall back: a key picked uniformly among the (distinct) keys of
    the table, then a weighted draw over that key's counter. *)
Theorem C3_sample_backoff (corpus : str) (n : Z) (m : Ngram) (ctx : str)
    (w : World) :
  (1 <= n)%Z ->
  Ngram_init corpus n = Ok m ->
  let pre := skipn (length ctx - Z.to_nat n) ctx in
  (forall j ctr,
     j < length pre ->
     tbl_get (table m) (skipn j pre) = Some ctr ->
     (forall i, i < j -> tbl_get (table m) (skipn i pre) = None) ->
     exists c,
       Ngram_getitem m ctx w = Ok (c, advance 1 j 0 w) /\
       pick ctr (tape w (cursor w) mod total ctr) = Some c /\
       forall c', points_on ctr c' = ctr_get ctr c') /\
  ((forall i, i < length pre -> tbl_get (table m) (skipn i pre) = None) ->
   table m <> [] ->
   exists k ctr c,
     Ngram_getitem m ctx w = Ok (c, advance 2 (length pre) 1 w) /\
     nth_error (keys (table m))
       (tape w (cursor w) mod length (keys (table m))) = Some k /\
     NoDup (keys (table m)) /\
     tbl_get (table m) k = Some ctr /\
     pick ctr (tape w (S (cursor w)) mod total ctr) = Some c /\
     forall c', points_on ctr c' = ctr_get ctr c') /\
  ((exists j, j < length pre /\ tbl_get (table m) (skipn j pre) <> None) ->
   exists c w', Ngram_getitem m ctx w = Ok (c, w') /\
                fallbacks w' = fallbacks w).
Proof.
  intros Hn Hm pre.
  destruct (Ngram_init_ok _ _ _ Hm) as [Hok Hnm].
  assert (Hpre : slice_from ctx (- n) = pre).
  { rewrite <- (Z2Nat.id n) at 1 by lia. apply slice_from_last. lia. }
  assert (Hpts : forall k ctr, tbl_get (table m) k = Some ctr ->
                 forall c', points_on ctr c' = ctr_get ctr c').
  { intros k ctr Hget c'. apply points_on_count.
    destruct (tbl_get_ok _ _ _ _ Hok Hget) as [_ (_ & Hnd & _)]. exact Hnd. }
  pose proof (getitem_hit corpus m ctx) as Hgh.
  pose proof (getitem_miss corpus m ctx w Hok) as Hgm.
  rewrite Hnm, Hpre in Hgh, Hgm.
  assert (Hhit : forall j ctr,
     j < length pre ->
     tbl_get (table m) (skipn j pre) = Some ctr ->
     (forall i, i < j -> tbl_get (table m) (skipn i pre) = None) ->
     exists c,
       Ngram_getitem m ctx w = Ok (c, advance 1 j 0 w) /\
       pick ctr (tape w (cursor w) mod total ctr) = Some c /\
       forall c', points_on ctr c' = ctr_get ctr c').
  { intros j ctr Hj Hget Hmiss.
    destruct (Hgh j ctr w Hok Hj Hget Hmiss) as (c & Hc & _ & Hg).
    exists c. repeat split; [exact Hg | exact Hc |].
    eapply Hpts. exact Hget. }
  split; [exact Hhit|]. split.
  - intros Hmiss Hne.
    destruct (Hgm Hne Hmiss) as (k & ctr & c & Hk & Hget & Hc & _ & Hg).
    exists k, ctr, c.
    unfold keys at 2. rewrite length_map.
    repeat split; try assumption; [apply Hok | eapply Hpts; exact Hget].
  - intros (j0 & Hj0 & Hsome).
    destruct (first_hit_dec (table m) pre) as [(j & ctr & Hj & Hget & Hmiss)|Hmiss].
    + destruct (Hhit j ctr Hj Hget Hmiss) as (c & Hg & _).
      exists c, (advance 1 j 0 w). split; [exact Hg|]. simpl. lia.
    + exfalso. apply Hsome. apply Hmiss. exact Hj0.
Qed.

Lemma C3_witness :
  let m := mkNgram [(s_ "ab", [("c"%char, 1)]); (s_ "b", [("c"%char, 1)])] 2 in
  let ctx := s_ "xyzb" in
  let w := mkWorld (fun i => i) 0 0 0 in
  let pre := skipn (length ctx - Z.to_nat 2) ctx in
  (forall j ctr,
     j < length pre ->
     tbl_get (table m) (skipn j pre) = Some ctr ->
     (forall i, i < j -> tbl_get (table m) (skipn i pre) = None) ->
     exists c,
       Ngram_getitem m ctx w = Ok (c, advance 1 j 0 w) /\
       pick ctr (tape w (cursor w) mod total ctr) = Some c /\
       forall c', points_on ctr c' = ctr_get ctr c') /\
  ((forall i, i < length pre -> tbl_get (table m) (skipn i pre) = None) ->
   table m <> [] ->
   exists k ctr c,
     Ngram_getitem m ctx w = Ok (c, advance 2 (length pre) 1 w) /\
     nth_error (keys (table m))
       (tape w (cursor w) mod length (keys (table m))) = Some k /\
     NoDup (keys (table m)) /\
     tbl_get (table m) k = Some ctr /\
     pick ctr (tape w (S (cursor w)) mod total ctr) = Some c /\
     forall c', points_on ctr c' = ctr_get ctr c') /\
  ((exists j, j < length pre /\ tbl_get (table m) (skipn j pre) <> None) ->
   exists c w', Ngram_getitem m ctx w = Ok (c, w') /\
                fallbacks w' = fallbacks w).
Proof.
  apply (C3_sample_backoff (s_ "abc") 2); [lia | reflexivity].
Defined.

(** C5: on a model built from an ASCII corpus longer than its order
    [n >= 1], with the phrase [s] generated for the template, a position
    holding 'u', 'l' or 'm' uses the phrase letter whose number is the
    count of letter directives before it (the next unconsumed letter, in
    generation order), a character of the corpus, and the count grows by
    exactly one there; 'u' emits its uppercase form, 'l' the letter as it
    is, 'm' the lowercase or the uppercase form as the position's own raw
    draw is even or odd, a draw no other position reads.  In the loop,
    each of the three pops that letter off the reversed phrase. *)
Theorem C5_letter_directives (corpus : str) (n : Z) (m : Ngram) (T : str)
    (w : World) :
  (1 <= n < Z.of_nat (length corpus))%Z ->
  Forall is_ascii corpus ->
  Ngram_init corpus n = Ok m ->
  (exists s pwd d sh f,
     Ngram_phrase m (Z.of_nat (length T)) w = Ok (s, advance d sh f w) /\
     generate_password m T w = Ok (pwd, advance (d + randoms T) sh f w) /\
     forall i c,
       nth_error T i = Some c -> is_letter_directive c = true ->
       exists p,
         nth_error s (letters (firstn i T)) = Some p /\ In p corpus /\
         letters (firstn (S i) T) = S (letters (firstn i T)) /\
         (c = "u"%char -> nth_error pwd i = Some (upper p)) /\
         (c = "l"%char -> nth_error pwd i = Some p) /\
         (c = "m"%char ->
          nth_error pwd i =
          Some (if tape w (cursor w + d + randoms (firstn i T)) mod 2 =? 0
                then lower p else upper p))) /\
  (forall i j c,
     nth_error T i = Some c -> is_random_directive c = true -> i < j ->
     randoms (firstn i T) < randoms (firstn j T)) /\
  (forall T' p s' pwd w',
     template_for ("u"%char :: T') (rev (p :: s')) pwd w' =
       template_for T' (rev s') (pwd ++ [[upper p]]) w' /\
     template_for ("l"%char :: T') (rev (p :: s')) pwd w' =
       template_for T' (rev s') (pwd ++ [[p]]) w' /\
     template_for ("m"%char :: T') (rev (p :: s')) pwd w' =
       template_for T' (rev s')
         (pwd ++ [[if tape w' (cursor w') mod 2 =? 0 then lower p else upper p]])
         (draw w')).
Proof.
  intros Hn _ Hm. split; [|split].
  - destruct (Ngram_init_valid _ _ _ Hn Hm) as (Hok & Hne & _).
    destruct (generate_password_emitted corpus m T w Hok Hne)
      as (s & pwd & d & sh & f & Hp & Hls & Hall & Hg & _ & Hpos).
    exists s, pwd, d, sh, f. split; [exact Hp|]. split; [exact Hg|].
    intros i c Hi Hc.
    assert (Hlt : i < length T) by (apply nth_error_Some; congruence).
    pose proof (letters_firstn_lt T i c Hi Hc) as HL. rewrite <- Hls in HL.
    destruct (nth_error s (letters (firstn i T))) as [p|] eqn:Es.
    2:{ apply nth_error_None in Es. lia. }
    exists p. split; [reflexivity|]. split.
    { rewrite Forall_forall in Hall. apply Hall.
      eapply nth_error_In; exact Es. }
    split.
    { rewrite (letters_firstn_S T i c Hi), Hc. lia. }
    specialize (Hpos i Hlt). unfold emitted in Hpos. rewrite Hi, Es in Hpos.
    repeat split; intros ->; rewrite Hpos; unfold emit; simpl;
      [reflexivity | reflexivity |].
    rewrite <- Nat.add_assoc. apply nth_error_pair.
  - intros i j c. apply randoms_firstn_lt.
  - intros T' p s' pwd w'. repeat split.
    + cbn [template_for]. simpl Ascii.eqb. cbv iota.
      unfold bind, lift. rewrite pop_rev. reflexivity.
    + cbn [template_for]. simpl Ascii.eqb. cbv iota.
      unfold bind, lift. rewrite pop_rev. reflexivity.
    + destruct (template_for_step "m" T' (p :: s') pwd w' ltac:(discriminate))
        as (e & He & Hstep).
      rewrite Hstep, draw_advance. simpl tl.
      change (emit "m" (nth_error (p :: s') 0) (tape w' (cursor w')))
        with (nth_error [lower p; upper p] (tape w' (cursor w') mod 2)) in He.
      rewrite nth_error_pair in He. inversion He. reflexivity.
Qed.

Lemma C5_witness :
  let m := mkNgram [(s_ "a", [("b"%char, 1)])] 1 in
  let T := s_ "umdl" in
  let w := mkWorld (fun i => i) 0 0 0 in
  (exists s pwd d sh f,
     Ngram_phrase m (Z.of_nat (length T)) w = Ok (s, advance d sh f w) /\
     generate_password m T w = Ok (pwd, advance (d + randoms T) sh f w) /\
     forall i c,
       nth_error T i = Some c -> is_letter_directive c = true ->
       exists p,
         nth_error s (letters (firstn i T)) = Some p /\ In p (s_ "ab") /\
         letters (firstn (S i) T) = S (letters (firstn i T)) /\
         (c = "u"%char -> nth_error pwd i = Some (upper p)) /\
         (c = "l"%char -> nth_error pwd i = Some p) /\
         (c = "m"%char ->
          nth_error pwd i =
          Some (if tape w (cursor w + d + randoms (firstn i T)) mod 2 =? 0
                then lower p else upper p))) /\
  (forall i j c,
     nth_error T i = Some c -> is_random_directive c = true -> i < j ->
     randoms (firstn i T) < randoms (firstn j T)) /\
  (forall T' p s' pwd w',
     template_for ("u"%char :: T') (rev (p :: s')) pwd w' =
       template_for T' (rev s') (pwd ++ [[upper p]]) w' /\
     template_for ("l"%char :: T') (rev (p :: s')) pwd w' =
       template_for T' (rev s') (pwd ++ [[p]]) w' /\
     template_for ("m"%char :: T') (rev (p :: s')) pwd w' =
       template_for T' (rev s')
         (pwd ++ [[if tape w' (cursor w') mod 2 =? 0 then lower p else upper p]])
         (draw w')).
Proof.
  apply (C5_letter_directives (s_ "ab") 1);
    [simpl; lia | repeat constructor | reflexivity].
Defined.

(** C6: on a model built from an ASCII corpus longer than its order
    [n >= 1], a position holding 'd' emits the digit numbered by its own
    raw
    draw modulo 10 in "0123456789", a position holding 'p' the symbol
    numbered by its raw draw modulo 12 in "!@#$%&*+-=?;"; both pools are
    duplicate-free, so each character has exactly one index.  Neither
    position consumes a phrase letter: the count of letters used is the
    same before and after it, the loop leaves the phrase stack as it is,
    and what is emitted depends on the draw alone. *)
Theorem C6_digit_punctuation (corpus : str) (n : Z) (m : Ngram) (T : str)
    (w : World) :
  (1 <= n < Z.of_nat (length corpus))%Z ->
  Forall is_ascii corpus ->
  Ngram_init corpus n = Ok m ->
  (exists s pwd d sh f,
     Ngram_phrase m (Z.of_nat (length T)) w = Ok (s, advance d sh f w) /\
     generate_password m T w = Ok (pwd, advance (d + randoms T) sh f w) /\
     forall i,
       (nth_error T i = Some "d"%char ->
        (exists e, nth_error pwd i = Some e /\ In e digits) /\
        nth_error pwd i =
          nth_error digits (tape w (cursor w + d + randoms (firstn i T)) mod 10) /\
        letters (firstn (S i) T) = letters (firstn i T)) /\
       (nth_error T i = Some "p"%char ->
        (exists e, nth_error pwd i = Some e /\ In e punctuation) /\
        nth_error pwd i =
          nth_error punctuation
            (tape w (cursor w + d + randoms (firstn i T)) mod 12) /\
        letters (firstn (S i) T) = letters (firstn i T))) /\
  (forall T' ph pwd w',
     (exists e, nth_error digits (tape w' (cursor w') mod 10) = Some e /\
        template_for ("d"%char :: T') ph pwd w' =
        template_for T' ph (pwd ++ [[e]]) (draw w')) /\
     (exists e, nth_error punctuation (tape w' (cursor w') mod 12) = Some e /\
        template_for ("p"%char :: T') ph pwd w' =
        template_for T' ph (pwd ++ [[e]]) (draw w'))) /\
  (length digits = 10 /\ NoDup digits /\
   length punctuation = 12 /\ NoDup punctuation /\
   punctuation = ["!"; "@"; "#"; "$"; "%"; "&"; "*"; "+"; "-"; "="; "?"; ";"]%char).
Proof.
  intros Hn _ Hm. split; [|split].
  - destruct (Ngram_init_valid _ _ _ Hn Hm) as (Hok & Hne & _).
    destruct (generate_password_emitted corpus m T w Hok Hne)
      as (s & pwd & d & sh & f & Hp & Hls & _ & Hg & _ & Hpos).
    exists s, pwd, d, sh, f. split; [exact Hp|]. split; [exact Hg|].
    intros i; split; intros Hi.
    + assert (Hlt : i < length T) by (apply nth_error_Some; congruence).
      specialize (Hpos i Hlt). unfold emitted in Hpos. rewrite Hi in Hpos.
      change (emit "d" ?p ?r) with (nth_error digits (r mod 10)) in Hpos.
      set (r := tape w (cursor w + d + randoms (firstn i T))) in *.
      split; [|split; [exact Hpos|]].
      * rewrite Hpos.
        destruct (nth_error digits (r mod 10)) as [e|] eqn:E.
        -- exists e. split; [reflexivity | eapply nth_error_In; exact E].
        -- apply nth_error_None in E.
           pose proof (Nat.mod_upper_bound r 10 ltac:(lia)).
           change (length digits) with 10 in E. lia.
      * rewrite (letters_firstn_S T i _ Hi). simpl. lia.
    + assert (Hlt : i < length T) by (apply nth_error_Some; congruence).
      specialize (Hpos i Hlt). unfold emitted in Hpos. rewrite Hi in Hpos.
      change (emit "p" ?p ?r) with (nth_error punctuation (r mod 12)) in Hpos.
      set (r := tape w (cursor w + d + randoms (firstn i T))) in *.
      split; [|split; [exact Hpos|]].
      * rewrite Hpos.
        destruct (nth_error punctuation (r mod 12)) as [e|] eqn:E.
        -- exists e. split; [reflexivity | eapply nth_error_In; exact E].
        -- apply nth_error_None in E.
           pose proof (Nat.mod_upper_bound r 12 ltac:(lia)).
           change (length punctuation) with 12 in E. lia.
      * rewrite (letters_firstn_S T i _ Hi). simpl. lia.
  - intros T' ph pwd w'. rewrite <- (rev_involutive ph). split.
    + destruct (template_for_step "d" T' (rev ph) pwd w' ltac:(discriminate))
        as (e & He & Hstep).
      exists e. split; [exact He|]. rewrite Hstep, draw_advance. reflexivity.
    + destruct (template_for_step "p" T' (rev ph) pwd w' ltac:(discriminate))
        as (e & He & Hstep).
      exists e. split; [exact He|]. rewrite Hstep, draw_advance. reflexivity.
  - split; [reflexivity|]. split.
    { unfold digits; simpl.
      repeat (constructor; [simpl; intuition discriminate|]). constructor. }
    split; [reflexivity|]. split; [|reflexivity].
    unfold punctuation; simpl.
    repeat (constructor; [simpl; intuition discriminate|]). constructor.
Qed.

Lemma C6_witness :
  let m := mkNgram [(s_ "a", [("b"%char, 1)])] 1 in
  let T := s_ "dpld" in
  let w := mkWorld (fun i => 3 * i + 1) 0 0 0 in
  (exists s pwd d sh f,
     Ngram_phrase m (Z.of_nat (length T)) w = Ok (s, advance d sh f w) /\
     generate_password m T w = Ok (pwd, advance (d + randoms T) sh f w) /\
     forall i,
       (nth_error T i = Some "d"%char ->
        (exists e, nth_error pwd i = Some e /\ In e digits) /\
        nth_error pwd i =
          nth_error digits (tape w (cursor w + d + randoms (firstn i T)) mod 10) /\
        letters (firstn (S i) T) = letters (firstn i T)) /\
       (nth_error T i = Some "p"%char ->
        (exists e, nth_error pwd i = Some e /\ In e punctuation) /\
        nth_error pwd i =
          nth_error punctuation
            (tape w (cursor w + d + randoms (firstn i T)) mod 12) /\
        letters (firstn (S i) T) = letters (firstn i T))) /\
  (forall T' ph pwd w',
     (exists e, nth_error digits (tape w' (cursor w') mod 10) = Some e /\
        template_for ("d"%char :: T') ph pwd w' =
        template_for T' ph (pwd ++ [[e]]) (draw w')) /\
     (exists e, nth_error punctuation (tape w' (cursor w') mod 12) = Some e /\
        template_for ("p"%char :: T') ph pwd w' =
        template_for T' ph (pwd ++ [[e]]) (draw w'))) /\
  (length digits = 10 /\ NoDup digits /\
   length punctuation = 12 /\ NoDup punctuation /\
   punctuation = ["!"; "@"; "#"; "$"; "%"; "&"; "*"; "+"; "-"; "="; "?"; ";"]%char).
Proof.
  apply (C6_digit_punctuation (s_ "ab") 1);
    [simpl; lia | repeat constructor | reflexivity].
Defined.

(** C7: on a model built from an ASCII corpus longer than its order
    [n >= 1], a template character other than 'u', 'l', 'm', 'd', 'p'
    is
    emitted as it is at its position, and the count of phrase letters used
    is the same before and after it; the loop passes the phrase stack on
    untouched and draws nothing.  The match is case-sensitive: 'U', 'L',
    'M', 'D', 'P' are no directives.  A template without directives is
    returned unchanged, "X-Y" in particular. *)
Theorem C7_literals (corpus : str) (n : Z) (m : Ngram) (T : str) (w : World) :
  (1 <= n < Z.of_nat (length corpus))%Z ->
  Forall is_ascii corpus ->
  Ngram_init corpus n = Ok m ->
  (exists s pwd d sh f,
     Ngram_phrase m (Z.of_nat (length T)) w = Ok (s, advance d sh f w) /\
     generate_password m T w = Ok (pwd, advance (d + randoms T) sh f w) /\
     forall i c,
       nth_error T i = Some c -> is_directive c = false ->
       nth_error pwd i = Some c /\
       letters (firstn (S i) T) = letters (firstn i T)) /\
  (Forall (fun c => is_directive c = false) T ->
   exists w', generate_password m T w = Ok (T, w')) /\
  (exists w', generate_password m (s_ "X-Y") w = Ok (s_ "X-Y", w')) /\
  (forall c T' ph pwd w',
     is_directive c = false ->
     template_for (c :: T') ph pwd w' = template_for T' ph (pwd ++ [[c]]) w') /\
  (forall c, is_directive c = true <->
             c = "u" \/ c = "l" \/ c = "m" \/ c = "d" \/ c = "p")%char /\
  (is_directive "U" = false /\ is_directive "L" = false /\
   is_directive "M" = false /\ is_directive "D" = false /\
   is_directive "P" = false).
Proof.
  intros Hn _ Hm.
  destruct (Ngram_init_valid _ _ _ Hn Hm) as (Hok & Hne & _).
  assert (Hlit : forall T0, Forall (fun c => is_directive c = false) T0 ->
            exists w', generate_password m T0 w = Ok (T0, w')).
  { intros T0 HT0.
    destruct (generate_password_emitted corpus m T0 w Hok Hne)
      as (s & pwd & d & sh & f & _ & _ & _ & Hg & Hl & Hpos).
    exists (advance (d + randoms T0) sh f w). rewrite Hg. do 2 f_equal.
    apply nth_error_ext. intros i.
    destruct (Nat.lt_ge_cases i (length T0)) as [Hlt|Hge].
    - rewrite (Hpos i Hlt). unfold emitted.
      destruct (nth_error T0 i) as [c|] eqn:E; [|reflexivity].
      rewrite Forall_forall in HT0.
      destruct (is_directive_false c (HT0 c (nth_error_In _ _ E)))
        as (Eu & El & Em & Ed & Ep).
      unfold emit. rewrite Eu, El, Em, Ed, Ep. reflexivity.
    - assert (E1 : nth_error pwd i = None) by (apply nth_error_None; lia).
      assert (E2 : nth_error T0 i = None) by (apply nth_error_None; lia).
      congruence. }
  split; [|split; [|split; [|split; [|split]]]].
  - destruct (generate_password_emitted corpus m T w Hok Hne)
      as (s & pwd & d & sh & f & Hp & _ & _ & Hg & _ & Hpos).
    exists s, pwd, d, sh, f. split; [exact Hp|]. split; [exact Hg|].
    intros i c Hi Hc.
    assert (Hlt : i < length T) by (apply nth_error_Some; congruence).
    destruct (is_directive_false c Hc) as (Eu & El & Em & Ed & Ep).
    split.
    + rewrite (Hpos i Hlt). unfold emitted. rewrite Hi.
      unfold emit. rewrite Eu, El, Em, Ed, Ep. reflexivity.
    + rewrite (letters_firstn_S T i c Hi). unfold is_letter_directive.
      rewrite Eu, El, Em. simpl. lia.
  - apply Hlit.
  - apply Hlit. repeat constructor.
  - intros c T' ph pwd w' Hc.
    destruct (is_directive_false c Hc) as (Eu & El & Em & Ed & Ep).
    cbn [template_for]. rewrite Eu, El, Em, Ed, Ep. reflexivity.
  - intros c. unfold is_directive, is_letter_directive, is_random_directive.
    rewrite !orb_true_iff, !Ascii.eqb_eq. tauto.
  - repeat split.
Qed.

Lemma C7_witness :
  let m := mkNgram [(s_ "a", [("b"%char, 1)])] 1 in
  let T := s_ "Ul-9" in
  let w := mkWorld (fun i => i) 0 0 0 in
  (exists s pwd d sh f,
     Ngram_phrase m (Z.of_nat (length T)) w = Ok (s, advance d sh f w) /\
     generate_password m T w = Ok (pwd, advance (d + randoms T) sh f w) /\
     forall i c,
       nth_error T i = Some c -> is_directive c = false ->
       nth_error pwd i = Some c /\
       letters (firstn (S i) T) = letters (firstn i T)) /\
  (Forall (fun c => is_directive c = false) T ->
   exists w', generate_password m T w = Ok (T, w')) /\
  (exists w', generate_password m (s_ "X-Y") w = Ok (s_ "X-Y", w')) /\
  (forall c T' ph pwd w',
     is_directive c = false ->
     template_for (c :: T') ph pwd w' = template_for T' ph (pwd ++ [[c]]) w') /\
  (forall c, is_directive c = true <->
             c = "u" \/ c = "l" \/ c = "m" \/ c = "d" \/ c = "p")%char /\
  (is_directive "U" = false /\ is_directive "L" = false /\
   is_directive "M" = false /\ is_directive "D" = false /\
   is_directive "P" = false).
Proof.
  apply (C7_literals (s_ "ab") 1);
    [simpl; lia | repeat constructor | reflexivity].
Defined.

(** C8: [phrase] starts from the empty string and, once per iteration,
    appends the sample drawn with the whole string accumulated so far as
    context.  For a model built from a corpus longer than its order
    [n >= 1] it returns exactly [length] characters, all of them
    characters of the corpus (lowercase letters when the corpus is), and
    they are used in the order generated: on an all-'l' template
    [generate_password] returns the phrase itself. *)
Theorem C8_phrase (corpus : str) (n : Z) (m : Ngram) :
  (1 <= n < Z.of_nat (length corpus))%Z ->
  Ngram_init corpus n = Ok m ->
  (forall w, Ngram_phrase m 0 w = Ok ([], w)) /\
  (forall k w,
     Ngram_phrase m (Z.of_nat (S k)) w =
     (s <- Ngram_phrase m (Z.of_nat k) ;;
      c <- Ngram_getitem m s ;;
      ret (s ++ [c])) w) /\
  (forall k w, exists s w',
     Ngram_phrase m (Z.of_nat k) w = Ok (s, w') /\
     length s = k /\
     Forall (fun c => In c corpus) s /\
     (Forall is_lowercase corpus -> Forall is_lowercase s)) /\
  (forall k w,
     generate_password m (repeat "l"%char k) w = Ngram_phrase m (Z.of_nat k) w).
Proof.
  intros Hn Hm.
  destruct (Ngram_init_valid _ _ _ Hn Hm) as (Hok & Hne & _).
  split; [reflexivity|]. split; [|split].
  - intros k w. unfold Ngram_phrase. rewrite !Nat2Z.id. apply phrase_for_snoc.
  - intros k w.
    destruct (phrase_for_total corpus m Hok Hne k [] w)
      as (s & sh & f & Hp & Hl & Hall & _).
    exists s, (advance (k + f) sh f w). unfold Ngram_phrase. rewrite Nat2Z.id.
    repeat split; try assumption.
    intros Hlow. rewrite Forall_forall in *. intros c Hc.
    apply Hlow, Hall, Hc.
  - intros k w.
    destruct (generate_password_emitted corpus m (repeat "l"%char k) w Hok Hne)
      as (s & pwd & d & sh & f & Hp & Hls & _ & Hg & Hl & Hpos).
    rewrite repeat_length in *. rewrite Hg, Hp, randoms_repeat_l, Nat.add_0_r.
    do 2 f_equal. apply nth_error_ext. intros i.
    destruct (Nat.lt_ge_cases i k) as [Hlt|Hge].
    + rewrite (Hpos i Hlt). unfold emitted.
      rewrite nth_error_repeat by exact Hlt.
      rewrite letters_repeat_l by lia. reflexivity.
    + assert (E1 : nth_error pwd i = None) by (apply nth_error_None; lia).
      assert (E2 : nth_error s i = None) by (apply nth_error_None; lia).
      congruence.
Qed.

Lemma C8_witness :
  let m := mkNgram [(s_ "a", [("b"%char, 1)])] 1 in
  (forall w, Ngram_phrase m 0 w = Ok ([], w)) /\
  (forall k w,
     Ngram_phrase m (Z.of_nat (S k)) w =
     (s <- Ngram_phrase m (Z.of_nat k) ;;
      c <- Ngram_getitem m s ;;
      ret (s ++ [c])) w) /\
  (forall k w, exists s w',
     Ngram_phrase m (Z.of_nat k) w = Ok (s, w') /\
     length s = k /\
     Forall (fun c => In c (s_ "ab")) s /\
     (Forall is_lowercase (s_ "ab") -> Forall is_lowercase s)) /\
  (forall k w,
     generate_password m (repeat "l"%char k) w = Ngram_phrase m (Z.of_nat k) w).
Proof.
  apply (C8_phrase (s_ "ab") 1); [simpl; lia | reflexivity].
Defined.

(** * Further properties of the code *)

(** ** Construction *)

Lemma ctr_get_pos (corpus : str) (ctr : Counter) (c : ascii) :
  Forall (fun cw => 0 < snd cw /\ In (fst cw) corpus) ctr ->
  In c (keys ctr) -> 0 < ctr_get ctr c.
Proof.
  induction 1 as [|[k v] rest [Hv _] _ IH]; simpl; [tauto|].
  intros [->|Hin].
  - rewrite Ascii.eqb_refl. exact Hv.
  - destruct (Ascii.eqb k c); [exact Hv | apply IH; exact Hin].
Qed.

Lemma total_ctr_incr (ctr : Counter) (c : ascii) :
  total (ctr_incr ctr c) = S (total ctr).
Proof.
  unfold total, values.
  induction ctr as [|[k v] rest IH]; simpl; [reflexivity|].
  destruct (Ascii.eqb k c); simpl; [lia | rewrite IH; lia].
Qed.

Lemma tbl_total_incr (t : Table) (pre : str) (nxt : ascii) :
  tbl_total (tbl_incr t pre nxt) = S (tbl_total t).
Proof.
  unfold tbl_total, values.
  induction t as [|[k ctr] rest IH]; simpl.
  - reflexivity.
  - destruct (str_eqb k pre); simpl.
    + rewrite total_ctr_incr. reflexivity.
    + rewrite IH. lia.
Qed.

Lemma tbl_total_record (obs : list (str * ascii)) (t : Table) :
  tbl_total (record t obs) = tbl_total t + length obs.
Proof.
  revert t; induction obs as [|o obs IH]; intros t; simpl; [lia|].
  unfold record in *; simpl. rewrite IH, tbl_total_incr. lia.
Qed.

Lemma suffixes_count (l : str) : length (suffixes l) = length l.
Proof. induction l as [|x l IH]; simpl; [|rewrite IH]; reflexivity. Qed.

Lemma window_obs_length (corpus : str) (n i : nat) :
  i + n < length corpus -> length (window_obs corpus n i) = n.
Proof.
  intros H. unfold window_obs, window.
  destruct (nth_error corpus (i + n)) eqn:E.
  - rewrite length_map, suffixes_count, length_firstn, length_skipn. lia.
  - apply nth_error_None in E. lia.
Qed.

Lemma observations_length (corpus : str) (n : nat) :
  length (observations corpus n) = n * (length corpus - n).
Proof.
  unfold observations.
  assert (H : forall idx, (forall i, In i idx -> i + n < length corpus) ->
            length (flat_map (window_obs corpus n) idx) = n * length idx).
  { induction idx as [|i idx IH]; intros Hidx; simpl; [lia|].
    rewrite length_app, window_obs_length, IH.
    - lia.
    - intros; apply Hidx; right; assumption.
    - apply Hidx; left; reflexivity. }
  rewrite H, length_seq; [reflexivity|].
  intros i Hi. apply in_seq in Hi. lia.
Qed.

Lemma suffixes_In (ctx k : str) :
  In k (suffixes ctx) <-> k <> [] /\ ends_with ctx k = true.
Proof.
  split.
  - intros H. assert (Hk : k <> []).
    { pose proof (suffixes_nonempty ctx) as Hne.
      rewrite Forall_forall in Hne. apply Hne. exact H. }
    split; [exact Hk|].
    pose proof (count_suffixes ctx k Hk) as Hc.
    destruct (ends_with ctx k); [reflexivity|].
    assert (Hf : In k (filter (fun s => str_eqb s k) (suffixes ctx))).
    { apply filter_In. split; [exact H | apply str_eqb_refl]. }
    destruct (filter _ _); [destruct Hf | discriminate].
  - intros [Hk He]. pose proof (count_suffixes ctx k Hk) as Hc.
    rewrite He in Hc.
    destruct (filter (fun s => str_eqb s k) (suffixes ctx)) as [|x l] eqn:E;
      [discriminate|].
    assert (Hx : In x (filter (fun s => str_eqb s k) (suffixes ctx)))
      by (rewrite E; left; reflexivity).
    apply filter_In in Hx. destruct Hx as [Hx Hxk].
    apply str_eqb_eq in Hxk. subst. exact Hx.
Qed.

(** An entry of the table is an observation: the context ends a window
    the character follows. *)
Lemma observations_In (corpus : str) (n : nat) (k : str) (c : ascii) :
  In (k, c) (observations corpus n) <->
  k <> [] /\
  exists i, i < length corpus - n /\
            ends_with (window corpus n i) k = true /\
            follows corpus n i c = true.
Proof.
  unfold observations, window_obs, follows. rewrite in_flat_map. split.
  - intros (i & Hi & H). apply in_seq in Hi.
    destruct (nth_error corpus (i + n)) as [nxt|] eqn:En; [|destruct H].
    apply in_map_iff in H. destruct H as (s & E & Hs). inversion E; subst.
    apply suffixes_In in Hs. destruct Hs as [Hk He].
    split; [exact Hk|]. exists i. rewrite En, Ascii.eqb_refl.
    repeat split; [lia | exact He].
  - intros (Hk & i & Hi & He & Hf). exists i. split; [apply in_seq; lia|].
    destruct (nth_error corpus (i + n)) as [nxt|]; [|discriminate].
    apply Ascii.eqb_eq in Hf. subst. apply in_map_iff. exists k.
    split; [reflexivity|]. apply suffixes_In. split; assumption.
Qed.

Lemma count_obs_In (obs : list (str * ascii)) (k : str) (c : ascii) :
  0 < count_obs obs k c <-> In (k, c) obs.
Proof.
  unfold count_obs. split.
  - intros H.
    destruct (filter _ obs) as [|[s x] l] eqn:E; [simpl in H; lia|].
    assert (Hx : In (s, x) (filter (fun o => str_eqb (fst o) k && Ascii.eqb (snd o) c) obs))
      by (rewrite E; left; reflexivity).
    apply filter_In in Hx. destruct Hx as [Hx Ht]. simpl in Ht.
    apply andb_true_iff in Ht. destruct Ht as [H1 H2].
    apply str_eqb_eq in H1. apply Ascii.eqb_eq in H2. subst. exact Hx.
  - intros H.
    assert (Hx : In (k, c) (filter (fun o => str_eqb (fst o) k && Ascii.eqb (snd o) c) obs)).
    { apply filter_In. split; [exact H|]. simpl.
      rewrite str_eqb_refl, Ascii.eqb_refl. reflexivity. }
    destruct (filter _ obs); [destruct Hx | simpl; lia].
Qed.

(** X1: with an order below zero, [Ngram(corpus, n)] raises, an
    [IndexError] from [corpus[i + n]], exactly when the corpus has fewer
    than [-n] characters; otherwise it returns a model. *)
Theorem X1_negative_order (corpus : str) (order : Z) :
  (order < 0)%Z ->
  (Ngram_init corpus order = Raise IndexError <->
   (Z.of_nat (length corpus) < - order)%Z) /\
  ((- order <= Z.of_nat (length corpus))%Z ->
   exists m, Ngram_init corpus order = Ok m /\ n m = order).
Proof.
  intros Hn. destruct (Ngram_init_negative_order corpus order Hn) as [H1 H2].
  split; [split|].
  - intros E. destruct (Z.lt_ge_cases (Z.of_nat (length corpus)) (- order))
      as [|Hge]; [assumption|].
    destruct (H2 ltac:(lia)) as [m Hm]. congruence.
  - exact H1.
  - intros H. destruct (H2 H) as [m Hm]. exists m. split; [exact Hm|].
    apply (Ngram_init_ok _ _ _ Hm).
Qed.

Lemma X1_witness :
  (Ngram_init (s_ "ab") (-3) = Raise IndexError <->
   (Z.of_nat (length (s_ "ab")) < - (-3))%Z) /\
  ((- (-3) <= Z.of_nat (length (s_ "ab")))%Z ->
   exists m, Ngram_init (s_ "ab") (-3) = Ok m /\ n m = (-3)%Z).
Proof. apply (X1_negative_order (s_ "ab") (-3)). lia. Defined.

(** X2: whatever the corpus and the order, a table that construction
    returns is well formed: its contexts are distinct and non-empty, a
    context is found by lookup exactly when it is a key, and every counter
    is non-empty, lists each candidate once, with a count of at least 1,
    and only candidates that occur in the corpus. *)
Theorem X2_table_invariants (corpus : str) (order : Z) (m : Ngram) :
  Ngram_init corpus order = Ok m ->
  NoDup (keys (table m)) /\
  (forall k, In k (keys (table m)) <-> tbl_get (table m) k <> None) /\
  (forall k ctr,
     tbl_get (table m) k = Some ctr ->
     k <> [] /\ ctr <> [] /\ NoDup (keys ctr) /\
     forall c, In c (keys ctr) -> 1 <= ctr_get ctr c /\ In c corpus).
Proof.
  intros Hm. destruct (Ngram_init_ok _ _ _ Hm) as [Hok _].
  split; [apply Hok|]. split.
  - intros k. rewrite tbl_get_keys. split.
    + intros [ctr E]; congruence.
    + destruct (tbl_get (table m) k) as [ctr|]; [eauto | congruence].
  - intros k ctr Hget.
    destruct (tbl_get_ok _ _ _ _ Hok Hget) as [Hk (Hne & Hnd & Hall)].
    repeat split; try assumption.
    + apply (ctr_get_pos corpus); assumption.
    + eapply ctr_ok_In; [repeat split; eassumption | assumption].
Qed.

Lemma X2_witness :
  let m := mkNgram [(s_ "a", [("b"%char, 1)])] (-1) in
  NoDup (keys (table m)) /\
  (forall k, In k (keys (table m)) <-> tbl_get (table m) k <> None) /\
  (forall k ctr,
     tbl_get (table m) k = Some ctr ->
     k <> [] /\ ctr <> [] /\ NoDup (keys ctr) /\
     forall c, In c (keys ctr) -> 1 <= ctr_get ctr c /\ In c (s_ "ab")).
Proof. apply (X2_table_invariants (s_ "ab") (-1)). reflexivity. Defined.

(** X3: for an order [n >= 0] every window adds one count per suffix
    length, so all the counts of the table sum to
    [n * (len(corpus) - n)], and to 0 when the corpus has at most [n]
    characters. *)
Theorem X3_total_count (corpus : str) (order : nat) :
  exists m,
    Ngram_init corpus (Z.of_nat order) = Ok m /\
    tbl_total (table m) = order * (length corpus - order).
Proof.
  eexists. split; [apply Ngram_init_nat|]. simpl.
  rewrite tbl_total_record, observations_length. reflexivity.
Qed.

(** X4: for an order [n >= 0] a context is a key of the table exactly when
    it is non-empty and ends one of the windows
    [corpus[i : i+n]], [0 <= i < len(corpus) - n]; and [table[k][c]] is
    positive exactly when, moreover, [c] follows such a window.  A
    context that occurs only before the end of the first window is no
    key. *)
Theorem X4_keys_are_window_suffixes (corpus : str) (order : nat) :
  exists m,
    Ngram_init corpus (Z.of_nat order) = Ok m /\
    (forall k,
       tbl_get (table m) k <> None <->
       k <> [] /\
       exists i, i < length corpus - order /\
                 ends_with (window corpus order i) k = true) /\
    (forall k c,
       0 < tbl_count (table m) k c <->
       k <> [] /\
       exists i, i < length corpus - order /\
                 ends_with (window corpus order i) k = true /\
                 follows corpus order i c = true).
Proof.
  eexists. split; [apply Ngram_init_nat|]. simpl. split.
  - intros k.
    assert (Hkeys : tbl_get (record [] (observations corpus order)) k <> None <->
                    In k (map fst (observations corpus order))).
    { split.
      - intros H.
        assert (Hin : In k (keys (record [] (observations corpus order)))).
        { apply tbl_get_keys. destruct (tbl_get _ k) as [ctr|]; [eauto | congruence]. }
        apply record_keys_In in Hin. destruct Hin as [[]|Hin]. exact Hin.
      - intros H.
        assert (Hin : In k (keys (record [] (observations corpus order))))
          by (apply record_keys_In; right; exact H).
        apply tbl_get_keys in Hin. destruct Hin as [ctr E]. congruence. }
    rewrite Hkeys, in_map_iff. split.
    + intros ([s c] & <- & Hin). apply observations_In in Hin.
      destruct Hin as (Hk & i & Hi & He & _). simpl. eauto.
    + intros (Hk & i & Hi & He).
      assert (Hnx : exists c, nth_error corpus (i + order) = Some c).
      { destruct (nth_error corpus (i + order)) eqn:E; [eauto|].
        apply nth_error_None in E. lia. }
      destruct Hnx as [c Hc]. exists (k, c). split; [reflexivity|].
      apply observations_In. split; [exact Hk|]. exists i.
      unfold follows. rewrite Hc, Ascii.eqb_refl. auto.
  - intros k c. rewrite tbl_count_record.
    change (tbl_count [] k c) with 0. simpl.
    rewrite count_obs_In. apply observations_In.
Qed.

(** ** Sampling and generation *)

Lemma ends_with_skipn (l : str) (a : nat) : ends_with l (skipn a l) = true.
Proof.
  unfold ends_with. rewrite length_skipn.
  destruct (Nat.leb_spec (length l - a) (length l)); [|lia]. simpl.
  destruct (Nat.le_gt_cases a (length l)).
  - replace (length l - (length l - a)) with a by lia. apply str_eqb_refl.
  - replace (length l - (length l - a)) with (length l) by lia.
    rewrite !skipn_all2 by lia. reflexivity.
Qed.

(** A candidate of a counter of a constructed table was observed. *)
Lemma candidate_observed (corpus : str) (order : nat) (k : str)
    (ctr : Counter) (c : ascii) :
  tbl_get (record [] (observations corpus order)) k = Some ctr ->
  In c (keys ctr) ->
  k <> [] /\
  exists i, i < length corpus - order /\
            ends_with (window corpus order i) k = true /\
            follows corpus order i c = true.
Proof.
  intros Hget Hc.
  pose proof (Ngram_init_ok corpus (Z.of_nat order) _ (Ngram_init_nat corpus order))
    as [Hok _]. simpl in Hok.
  destruct (tbl_get_ok _ _ _ _ Hok Hget) as [_ (_ & _ & Hall)].
  pose proof (ctr_get_pos corpus ctr c Hall Hc) as Hpos.
  apply observations_In, count_obs_In.
  pose proof (tbl_count_record (observations corpus order) [] k c) as E.
  unfold tbl_count at 1 in E. rewrite Hget in E.
  change (tbl_count [] k c) with 0 in E. simpl in E. lia.
Qed.

(** X5: a sample never invents a transition.  On a model of order
    [n >= 1] the character a sample returns follows, somewhere in the
    corpus, a window that ends with a key [k] of the table; and when the
    sample did not fall back, [k] is a suffix of the context given, of at
    most [n] characters. *)
Theorem X5_sample_observed (corpus : str) (order : nat) (m : Ngram)
    (ctx : str) (w w' : World) (c : ascii) :
  1 <= order ->
  Ngram_init corpus (Z.of_nat order) = Ok m ->
  Ngram_getitem m ctx w = Ok (c, w') ->
  exists k i,
    tbl_get (table m) k <> None /\ k <> [] /\
    i < length corpus - order /\
    ends_with (window corpus order i) k = true /\
    follows corpus order i c = true /\
    (fallbacks w' = fallbacks w ->
     ends_with ctx k = true /\ length k <= order).
Proof.
  intros Ho Hm Hg.
  destruct (Ngram_init_ok _ _ _ Hm) as [Hok Hnm].
  rewrite Ngram_init_nat in Hm. inversion Hm as [Em]. clear Hm.
  assert (Htab : table m = record [] (observations corpus order))
    by (rewrite <- Em; reflexivity).
  assert (Hne : table m <> []).
  { intros E. rewrite (getitem_empty m ctx w E) in Hg. discriminate. }
  pose proof (slice_from_last ctx order Ho) as Hpre.
  pose proof (slice_from_length ctx order Ho) as Hlen.
  rewrite <- Hnm in Hpre, Hlen.
  destruct (first_hit_dec (table m) (slice_from ctx (- n m)))
    as [(j & ctr & Hj & Hget & Hmiss)|Hmiss].
  - destruct (getitem_hit corpus m ctx j ctr w Hok Hj Hget Hmiss)
      as (c0 & Hc0 & _ & Hr).
    rewrite Hr in Hg. inversion Hg; subst c0 w'. clear Hg.
    pose proof Hget as Hget'. rewrite Htab in Hget'.
    destruct (candidate_observed corpus order _ ctr c Hget' (pick_In _ _ _ Hc0))
      as (Hk & i & Hi & He & Hf).
    exists (skipn j (slice_from ctx (- n m))), i.
    repeat split; try assumption; [congruence | |].
    + rewrite Hpre, skipn_skipn. apply ends_with_skipn.
    + rewrite length_skipn. lia.
  - destruct (getitem_miss corpus m ctx w Hok Hne Hmiss)
      as (k & ctr & c0 & _ & Hget & Hc0 & _ & Hr).
    rewrite Hr in Hg. inversion Hg; subst c0 w'. clear Hg.
    pose proof Hget as Hget'. rewrite Htab in Hget'.
    destruct (candidate_observed corpus order _ ctr c Hget' (pick_In _ _ _ Hc0))
      as (Hk & i & Hi & He & Hf).
    exists k, i. repeat split; try assumption; try congruence;
      simpl in *; lia.
Qed.

Lemma X5_witness :
  exists k i,
    tbl_get [(s_ "ab", [("c"%char, 1)]); (s_ "b", [("c"%char, 1)])] k <> None /\
    k <> [] /\
    i < length (s_ "abc") - 2 /\
    ends_with (window (s_ "abc") 2 i) k = true /\
    follows (s_ "abc") 2 i "c" = true /\
    (fallbacks (advance 1 1 0 (mkWorld (fun i => i) 0 0 0)) =
     fallbacks (mkWorld (fun i => i) 0 0 0) ->
     ends_with (s_ "zzxb") k = true /\ length k <= 2).
Proof.
  apply (X5_sample_observed (s_ "abc") 2
           (mkNgram [(s_ "ab", [("c"%char, 1)]); (s_ "b", [("c"%char, 1)])] 2)
           (s_ "zzxb") (mkWorld (fun i => i) 0 0 0));
    [lia | reflexivity | reflexivity].
Defined.

Lemma slice_from_nil (z : Z) : slice_from [] z = [].
Proof. unfold slice_from. apply skipn_nil. Qed.

(** The cost of a phrase: one draw per letter and one more per fallback;
    the first sample of a phrase, on the empty context, always falls
    back; each sample shortens at most [N] times. *)
Lemma phrase_for_cost (corpus : str) (m : Ngram) (N : nat) :
  tbl_ok corpus (table m) -> table m <> [] -> n m = Z.of_nat N -> 1 <= N ->
  forall (k : nat) (s : str) (w : World),
  exists out sh f,
    phrase_for m k s w = Ok (s ++ out, advance (k + f) sh f w) /\
    length out = k /\ sh <= N * k /\ f <= k /\
    (s = [] -> 1 <= k -> 1 <= f).
Proof.
  intros Hok Hne Hnm HN. induction k as [|k IH]; intros s w.
  - exists [], 0, 0. simpl. rewrite app_nil_r, advance_0.
    repeat split; lia.
  - assert (Hstep : exists c s1 f1,
              Ngram_getitem m s w = Ok (c, advance (1 + f1) s1 f1 w) /\
              s1 <= N /\ f1 <= 1 /\ (s = [] -> f1 = 1)).
    { destruct s as [|x s0].
      - destruct (getitem_miss corpus m [] w Hok Hne)
          as (k0 & ctr & c & _ & _ & _ & _ & Hr).
        { rewrite slice_from_nil. simpl. intros; lia. }
        rewrite slice_from_nil in Hr. exists c, 0, 1.
        repeat split; [exact Hr | lia | lia].
      - destruct (getitem_total corpus m (x :: s0) w Hok Hne)
          as (c & s1 & f1 & Hg & _ & Hs & Hf).
        exists c, s1, f1. repeat split; [exact Hg | | exact Hf | discriminate].
        rewrite Hnm in Hs.
        pose proof (slice_from_length (x :: s0) N HN). lia. }
    destruct Hstep as (c & s1 & f1 & Hg & Hs1 & Hf1 & Hfirst).
    destruct (IH (s ++ [c]) (advance (1 + f1) s1 f1 w))
      as (out & s2 & f2 & Hp & Hl & Hs2 & Hf2 & _).
    exists (c :: out), (s1 + s2), (f1 + f2).
    simpl phrase_for. unfold bind. rewrite Hg, Hp, advance_advance, <- app_assoc.
    simpl. repeat split; [ | lia | nia | lia | ].
    + do 2 f_equal. world.
    + intros Hs _. specialize (Hfirst Hs). lia.
Qed.

(** X6: what a password costs.  On a model built from a corpus longer
    than its order [n >= 1], [generate_password] reads one raw draw per
    template character for the phrase, one more per fallback, and one per
    'm', 'd' or 'p'; a non-empty template takes at least one fallback (the
    first sample has no context) and at most one per character; and all
    its samples together shorten their contexts at most
    [n * len(template)] times. *)
Theorem X6_generation_cost (corpus : str) (order : Z) (m : Ngram) (T : str)
    (w : World) :
  (1 <= order < Z.of_nat (length corpus))%Z ->
  Ngram_init corpus order = Ok m ->
  exists pwd sh f,
    generate_password m T w =
      Ok (pwd, advance (length T + f + randoms T) sh f w) /\
    f <= length T /\
    (T <> [] -> 1 <= f) /\
    (Z.of_nat sh <= order * Z.of_nat (length T))%Z.
Proof.
  intros Hn Hm.
  destruct (Ngram_init_valid _ _ _ Hn Hm) as (Hok & Hne & Hnm).
  rewrite <- (Z2Nat.id order) in Hnm by lia.
  destruct (phrase_for_cost corpus m (Z.to_nat order) Hok Hne Hnm ltac:(lia)
              (length T) [] w)
    as (s & sh & f & Hp & Hl & Hsh & Hf & Hfirst).
  simpl in Hp.
  destruct (template_for_emitted T s [] (advance (length T + f) sh f w))
    as (out & Hout & _).
  { rewrite Hl. apply letters_le. }
  exists out, sh, f. repeat split.
  - unfold generate_password, bind at 1, Ngram_phrase.
    rewrite Nat2Z.id, Hp. unfold bind. rewrite Hout. simpl app.
    rewrite concat_singletons. unfold ret. do 2 f_equal. world.
  - exact Hf.
  - intros HT. apply Hfirst; [reflexivity|].
    destruct T; [congruence | simpl; lia].
  - nia.
Qed.

Lemma X6_witness :
  let m := mkNgram [(s_ "a", [("b"%char, 1)])] 1 in
  let T := s_ "lmd-" in
  let w := mkWorld (fun i => i) 0 0 0 in
  exists pwd sh f,
    generate_password m T w =
      Ok (pwd, advance (length T + f + randoms T) sh f w) /\
    f <= length T /\
    (T <> [] -> 1 <= f) /\
    (Z.of_nat sh <= 1 * Z.of_nat (length T))%Z.
Proof.
  apply (X6_generation_cost (s_ "ab") 1); [simpl; lia | reflexivity].
Defined.

(** ** Letter case *)

Ltac each_ascii c :=
  destruct c as [[] [] [] [] [] [] [] []]; vm_compute.

Lemma lower_upper_id (c : ascii) :
  is_between 65 90 c = false -> lower (upper c) = c /\ lower c = c.
Proof. each_ascii c; intros H; try discriminate H; split; reflexivity. Qed.

Lemma upper_of_lowercase (c : ascii) :
  is_between 97 122 c = true ->
  upper c <> c /\ is_between 65 90 (upper c) = true.
Proof.
  each_ascii c; intros H; try discriminate H; split;
    (reflexivity || discriminate).
Qed.

(** X7: case directives change nothing but the case.  When the corpus
    is ASCII and holds no uppercase letter, the character emitted at a
    'u', 'l' or 'm'
    position is the phrase letter of that position or its uppercase form,
    and lowercasing it gives the phrase letter back; for a phrase letter
    in 'a'..'z' the uppercase form is a different character, in
    'A'..'Z'. *)
Theorem X7_case_round_trip (corpus : str) (order : Z) (m : Ngram) (T : str)
    (w : World) :
  (1 <= order < Z.of_nat (length corpus))%Z ->
  Forall is_ascii corpus ->
  Ngram_init corpus order = Ok m ->
  Forall (fun c => is_between 65 90 c = false) corpus ->
  exists s pwd d sh f,
    Ngram_phrase m (Z.of_nat (length T)) w = Ok (s, advance d sh f w) /\
    generate_password m T w = Ok (pwd, advance (d + randoms T) sh f w) /\
    forall i c,
      nth_error T i = Some c -> is_letter_directive c = true ->
      exists p e,
        nth_error s (letters (firstn i T)) = Some p /\
        nth_error pwd i = Some e /\
        (e = p \/ e = upper p) /\
        lower e = p /\
        (is_lowercase p ->
         upper p <> p /\ is_between 65 90 (upper p) = true).
Proof.
  intros Hn _ Hm Hlow.
  destruct (Ngram_init_valid _ _ _ Hn Hm) as (Hok & Hne & _).
  destruct (generate_password_emitted corpus m T w Hok Hne)
    as (s & pwd & d & sh & f & Hp & Hls & Hall & Hg & _ & Hpos).
  exists s, pwd, d, sh, f. split; [exact Hp|]. split; [exact Hg|].
  intros i c Hi Hc.
  assert (Hlt : i < length T) by (apply nth_error_Some; congruence).
  pose proof (letters_firstn_lt T i c Hi Hc) as HL. rewrite <- Hls in HL.
  destruct (nth_error s (letters (firstn i T))) as [p|] eqn:Es.
  2:{ apply nth_error_None in Es. lia. }
  assert (Hp' : is_between 65 90 p = false).
  { rewrite Forall_forall in Hall, Hlow. apply Hlow, Hall.
    eapply nth_error_In; exact Es. }
  destruct (lower_upper_id p Hp') as [Hlu Hll].
  specialize (Hpos i Hlt). unfold emitted in Hpos. rewrite Hi, Es in Hpos.
  unfold is_letter_directive in Hc.
  assert (Hcase : c = "u"%char \/ c = "l"%char \/ c = "m"%char).
  { rewrite !orb_true_iff, !Ascii.eqb_eq in Hc. tauto. }
  exists p.
  destruct Hcase as [-> | [-> | ->]].
  - exists (upper p). repeat split; auto; apply upper_of_lowercase; assumption.
  - exists p. repeat split; auto; apply upper_of_lowercase; assumption.
  - change (emit "m" (Some p) ?r)
      with (nth_error [lower p; upper p] (r mod 2)) in Hpos.
    rewrite nth_error_pair, Hll in Hpos.
    destruct (_ mod 2 =? 0).
    + exists p. repeat split; auto; apply upper_of_lowercase; assumption.
    + exists (upper p).
      repeat split; auto; apply upper_of_lowercase; assumption.
Qed.

Lemma X7_witness :
  let m := mkNgram [(s_ "a", [("b"%char, 1)])] 1 in
  let T := s_ "umdl" in
  let w := mkWorld (fun i => i) 0 0 0 in
  exists s pwd d sh f,
    Ngram_phrase m (Z.of_nat (length T)) w = Ok (s, advance d sh f w) /\
    generate_password m T w = Ok (pwd, advance (d + randoms T) sh f w) /\
    forall i c,
      nth_error T i = Some c -> is_letter_directive c = true ->
      exists p e,
        nth_error s (letters (firstn i T)) = Some p /\
        nth_error pwd i = Some e /\
        (e = p \/ e = upper p) /\
        lower e = p /\
        (is_lowercase p ->
         upper p <> p /\ is_between 65 90 (upper p) = true).
Proof.
  apply (X7_case_round_trip (s_ "ab") 1);
    [simpl; lia | repeat constructor | reflexivity | repeat constructor].
Defined.

(** ** The corpus of [main] *)

Lemma kept_lower (c : ascii) :
  negb (negb (is_word c) || is_digit c) = true ->
  (is_lowercase (lower c) \/ lower c = "_"%char) /\
  negb (negb (is_word (lower c)) || is_digit (lower c)) = true /\
  lower (lower c) = lower c.
Proof.
  unfold is_lowercase.
  each_ascii c; intros H; try discriminate H; repeat split;
    solve [left; reflexivity | right; reflexivity].
Qed.

Lemma kept_letter (c : ascii) :
  negb (negb (is_word c) || is_digit c) =
  is_between 97 122 c || is_between 65 90 c || Ascii.eqb c "_".
Proof. each_ascii c; reflexivity. Qed.

Lemma clean_corpus_alphabet (text : str) :
  Forall (fun c => is_lowercase c \/ c = "_"%char) (clean_corpus text).
Proof.
  unfold clean_corpus, strip_nonword_digits. apply Forall_map.
  apply Forall_forall. intros c Hc. apply filter_In in Hc.
  apply kept_lower. apply Hc.
Qed.

(** X8: the clean-up of [main] applied to ASCII text leaves the letters
    and the underscores of the text, in their order, the letters in
    lowercase: the corpus holds characters of 'a'..'z' and '_' only (the
    underscore is a word character, so it is kept), no digit and no
    uppercase letter; cleaning a cleaned text changes nothing. *)
Theorem X8_clean_corpus (text : str) :
  Forall is_ascii text ->
  clean_corpus text =
    map lower (filter (fun c => is_between 97 122 c || is_between 65 90 c ||
                                Ascii.eqb c "_") text) /\
  Forall (fun c => is_lowercase c \/ c = "_"%char) (clean_corpus text) /\
  Forall (fun c => is_digit c = false /\ is_between 65 90 c = false)
         (clean_corpus text) /\
  clean_corpus (clean_corpus text) = clean_corpus text /\
  length (clean_corpus text) <= length text.
Proof.
  intros _. split; [|split; [|split; [|split]]].
  - unfold clean_corpus, strip_nonword_digits. f_equal.
    apply filter_ext. intros c. apply kept_letter.
  - apply clean_corpus_alphabet.
  - eapply Forall_impl; [|apply clean_corpus_alphabet].
    intros c [H| ->]; [|split; reflexivity].
    unfold is_lowercase in H. revert H.
    each_ascii c; intros H; try discriminate H; split; reflexivity.
  - unfold clean_corpus, strip_nonword_digits.
    assert (H : forall l,
              Forall (fun c => negb (negb (is_word c) || is_digit c) = true) l ->
              map lower (filter (fun c => negb (negb (is_word c) || is_digit c))
                                (map lower l)) = map lower l).
    { induction 1 as [|c l Hc _ IH]; [reflexivity|].
      destruct (kept_lower c Hc) as (_ & Hk & Hl).
      simpl. rewrite Hk. simpl. rewrite Hl, IH. reflexivity. }
    apply H. apply Forall_forall. intros c Hc. apply filter_In in Hc. apply Hc.
  - unfold clean_corpus, strip_nonword_digits.
    rewrite length_map. apply filter_length_le.
Qed.

Lemma X8_witness :
  let text := s_ "It's 10:00 a.m. -- _Dee_!" in
  clean_corpus text =
    map lower (filter (fun c => is_between 97 122 c || is_between 65 90 c ||
                                Ascii.eqb c "_") text) /\
  Forall (fun c => is_lowercase c \/ c = "_"%char) (clean_corpus text) /\
  Forall (fun c => is_digit c = false /\ is_between 65 90 c = false)
         (clean_corpus text) /\
  clean_corpus (clean_corpus text) = clean_corpus text /\
  length (clean_corpus text) <= length text.
Proof.
  apply (X8_clean_corpus (s_ "It's 10:00 a.m. -- _Dee_!")).
  repeat constructor.
Defined.

Example clean_corpus_run :
  clean_corpus (s_ "It's 10:00 a.m. -- _Dee_!") = s_ "itsam_dee_".
Proof. reflexivity. Qed.

(** ** The front end *)



(** On a well-formed non-empty table the loop never raises: it shows the
    password of the template in force, then one per reading that does not
    end it. *)
Lemma gui_while_shows (corpus : str) (m : Ngram) :
  tbl_ok corpus (table m) -> table m <> [] ->
  forall reads template shown w,
  exists pwd0 w1 rest,
    generate_password m template w = Ok (pwd0, w1) /\
    gui_while m template reads shown w =
      (if has_done reads then Exited (shown ++ pwd0 :: rest)
       else Waiting (shown ++ pwd0 :: rest)) /\
    map (@length ascii) (pwd0 :: rest) =
      map (@length ascii) (template :: map template_field (before_done reads)).
Proof.
  intros Hok Hne. induction reads as [|r reads IH]; intros template shown w;
    destruct (generate_password_emitted corpus m template w Hok Hne)
      as (s & pwd & d & sh & f & _ & _ & _ & Hg & Hl & _).
  - exists pwd, (advance (d + randoms template) sh f w), [].
    simpl. rewrite Hg, Hl. auto.
  - destruct (is_done (ev r)) eqn:Ed.
    + exists pwd, (advance (d + randoms template) sh f w), [].
      simpl. rewrite Hg, Ed, Hl. auto.
    + destruct (IH (template_field r) (shown ++ [pwd])
                   (advance (d + randoms template) sh f w))
        as (pwd1 & w2 & rest & _ & Hloop & Hlen).
      exists pwd, (advance (d + randoms template) sh f w), (pwd1 :: rest).
      simpl. rewrite Hg, Ed, Hloop, <- !app_assoc. simpl.
      split; [reflexivity|]. split; [reflexivity|].
      simpl in Hlen. rewrite Hl, Hlen. reflexivity.
Qed.

Lemma emitted_class (corpus T s : str) (tp : nat -> nat) (cur i : nat)
    (c e : ascii) :
  Forall (fun x => In x corpus) s ->
  nth_error T i = Some c ->
  emitted T s tp cur i = Some e ->
  (c = "l"%char -> In e corpus) /\ (c = "d"%char -> In e digits).
Proof.
  intros Hs Hi He. unfold emitted in He. rewrite Hi in He.
  split; intros ->.
  - change (emit "l" ?p ?r) with p in He.
    rewrite Forall_forall in Hs. apply Hs. eapply nth_error_In; exact He.
  - change (emit "d" ?p ?r) with (nth_error digits (r mod 10)) in He.
    eapply nth_error_In; exact He.
Qed.

(** The password of the default template: eight characters of the corpus,
    then three digits. *)
Lemma default_password_shape (corpus : str) (m : Ngram) (w w1 : World)
    (pwd : str) :
  tbl_ok corpus (table m) -> table m <> [] ->
  generate_password m default_template w = Ok (pwd, w1) ->
  length pwd = 11 /\
  Forall (fun c => In c corpus) (firstn 8 pwd) /\
  Forall (fun c => In c digits) (skipn 8 pwd).
Proof.
  intros Hok Hne Hg.
  destruct (generate_password_emitted corpus m default_template w Hok Hne)
    as (s & pwd' & d & sh & f & _ & _ & Hall & Hg' & Hl & Hpos).
  rewrite Hg' in Hg. inversion Hg; subst pwd' w1. clear Hg.
  change (length default_template) with 11 in *.
  split; [exact Hl|]. split; apply Forall_forall; intros e He;
    apply In_nth_error in He; destruct He as [i Hi].
  - rewrite nth_error_firstn in Hi.
    destruct (Nat.ltb_spec i 8) as [Hi8|]; [|discriminate].
    rewrite (Hpos i ltac:(lia)) in Hi.
    assert (HT : nth_error default_template i = Some "l"%char).
    { do 8 (destruct i as [|i]; [reflexivity|]). lia. }
    apply (emitted_class corpus _ _ _ _ _ _ _ Hall HT Hi). reflexivity.
  - rewrite nth_error_skipn in Hi.
    assert (Hi3 : 8 + i < 11).
    { rewrite <- Hl. apply nth_error_Some. congruence. }
    rewrite (Hpos (8 + i) Hi3) in Hi.
    assert (HT : nth_error default_template (8 + i) = Some "d"%char).
    { do 3 (destruct i as [|i]; [reflexivity|]). lia. }
    apply (emitted_class corpus _ _ _ _ _ _ _ Hall HT Hi). reflexivity.
Qed.

(** X9: [password_gui] on a model built from an ASCII corpus longer than
    its order [n >= 1] never raises, whatever the user clicks and whatever
    is
    typed into the template field.  It shows a first password for the
    default template "llllllllddd", eight characters of the corpus
    followed by three digits, and one more password for each reading that
    precedes the first "Done" or window close, each as long as the
    template field of that reading; it exits at that "Done" or close. *)
Theorem X9_password_gui (corpus : str) (order : Z) (m : Ngram)
    (reads : list reading) (w : World) :
  (1 <= order < Z.of_nat (length corpus))%Z ->
  Forall is_ascii corpus ->
  Ngram_init corpus order = Ok m ->
  exists first rest,
    password_gui m reads w =
      (if has_done reads then Exited (first :: rest)
       else Waiting (first :: rest)) /\
    map (@length ascii) rest =
      map (fun r => length (template_field r)) (before_done reads) /\
    length first = 11 /\
    Forall (fun c => In c corpus) (firstn 8 first) /\
    Forall (fun c => In c digits) (skipn 8 first).
Proof.
  intros Hn _ Hm.
  destruct (Ngram_init_valid _ _ _ Hn Hm) as (Hok & Hne & _).
  destruct (gui_while_shows corpus m Hok Hne reads default_template [] w)
    as (pwd0 & w1 & rest & Hg & Hloop & Hlen).
  exists pwd0, rest. split; [exact Hloop|]. split.
  - simpl in Hlen. injection Hlen as _ Hrest. rewrite Hrest, map_map.
    reflexivity.
  - eapply default_password_shape; eassumption.
Qed.

Lemma X9_witness :
  let m := mkNgram [(s_ "a", [("b"%char, 1)])] 1 in
  let reads := [mkReading (Clicked (s_ "Again")) (s_ "bbbbbbbb000") (s_ "ud-");
                mkReading (Clicked (s_ "Done")) (s_ "B0-") (s_ "ud-")] in
  let w := mkWorld (fun i => i) 0 0 0 in
  exists first rest,
    password_gui m reads w =
      (if has_done reads then Exited (first :: rest)
       else Waiting (first :: rest)) /\
    map (@length ascii) rest =
      map (fun r => length (template_field r)) (before_done reads) /\
    length first = 11 /\
    Forall (fun c => In c (s_ "ab")) (firstn 8 first) /\
    Forall (fun c => In c digits) (skipn 8 first).
Proof.
  apply (X9_password_gui (s_ "ab") 1);
    [simpl; lia | repeat constructor | reflexivity].
Defined.



Example main_run :
  run_entry_point Parsed (s_ "Time--and regret!")
       [mkReading (Clicked (s_ "Again")) [] (s_ "X-d");
        mkReading (Clicked (s_ "Done")) [] (s_ "X-d")]
       (mkWorld (fun i => 7 * i + 3) 0 0 0) =
  FrontEnd (Exited [s_ "andregre418"; s_ "X-3"]).
Proof. reflexivity. Qed.

Example main_short_corpus :
  run_entry_point Parsed (s_ "A.b.c 123") [] (mkWorld (fun i => i) 0 0 0) =
  FrontEnd (Crashed IndexError []).
Proof. reflexivity. Qed.

(** ** Backoff reaches the last character *)

Lemma ends_with_iff (l k : str) :
  ends_with l k = true <-> exists a, k = skipn a l.
Proof.
  split.
  - unfold ends_with. intros H. apply andb_true_iff in H. destruct H as [_ H].
    apply str_eqb_eq in H. eauto.
  - intros [a ->]. apply ends_with_skipn.
Qed.

Lemma ends_with_trans (l k k' : str) :
  ends_with l k = true -> ends_with k k' = true -> ends_with l k' = true.
Proof.
  rewrite !ends_with_iff. intros [a ->] [b ->]. exists (b + a).
  apply skipn_skipn.
Qed.

Lemma ends_with_last (x : str) (c : ascii) : ends_with (x ++ [c]) [c] = true.
Proof.
  apply ends_with_iff. exists (length x).
  rewrite skipn_app, skipn_all, Nat.sub_diag. reflexivity.
Qed.

Lemma skipn_snoc (a : nat) (x : str) (c : ascii) :
  a <= length x -> skipn a (x ++ [c]) = skipn a x ++ [c].
Proof.
  intros H. rewrite skipn_app. replace (a - length x) with 0 by lia.
  reflexivity.
Qed.

(** A context is found in a constructed table exactly when it is non-empty
    and ends a window. *)
Lemma tbl_get_window (corpus : str) (order : nat) (k : str) :
  tbl_get (record [] (observations corpus order)) k <> None <->
  k <> [] /\
  exists i, i < length corpus - order /\
            ends_with (window corpus order i) k = true.
Proof.
  split.
  - intros H.
    destruct (tbl_get (record [] (observations corpus order)) k) as [ctr|] eqn:E;
      [|congruence].
    pose proof (Ngram_init_ok corpus (Z.of_nat order) _ (Ngram_init_nat corpus order))
      as [Hok _]. simpl in Hok.
    destruct (tbl_get_ok _ _ _ _ Hok E) as [_ (Hne & _ & _)].
    destruct ctr as [|[c v] rest]; [congruence|].
    destruct (candidate_observed corpus order k _ c E ltac:(left; reflexivity))
      as (Hk & i & Hi & He & _).
    eauto.
  - intros (Hk & i & Hi & He).
    assert (Hnx : exists c, nth_error corpus (i + order) = Some c).
    { destruct (nth_error corpus (i + order)) eqn:E; [eauto|].
      apply nth_error_None in E. lia. }
    destruct Hnx as [c Hc].
    assert (Hin : In (k, c) (observations corpus order)).
    { apply observations_In. split; [exact Hk|]. exists i.
      unfold follows. rewrite Hc, Ascii.eqb_refl. auto. }
    assert (Hkey : In k (keys (record [] (observations corpus order)))).
    { apply record_keys_In. right. apply in_map_iff. exists (k, c). auto. }
    apply tbl_get_keys in Hkey. destruct Hkey as [ctr E]. congruence.
Qed.

(** X11: the keys of a constructed table are closed under non-empty
    suffixes, so the backoff of a sample decides at the last character of
    its context.  On a model built from a corpus longer than its order
    [n >= 1], a sample on a context that ends with [c] returns without a
    fallback when the one-character context [c] is a key, and falls back
    when it is not, which also happens in the middle of a phrase. *)
Theorem X11_fallback_iff_last_char (corpus : str) (order : nat) (m : Ngram)
    (ctx : str) (c : ascii) (w : World) :
  1 <= order < length corpus ->
  Ngram_init corpus (Z.of_nat order) = Ok m ->
  (forall k k',
     tbl_get (table m) k <> None -> k' <> [] -> ends_with k k' = true ->
     tbl_get (table m) k' <> None) /\
  exists ch w',
    Ngram_getitem m (ctx ++ [c]) w = Ok (ch, w') /\
    (tbl_get (table m) [c] <> None -> fallbacks w' = fallbacks w) /\
    (tbl_get (table m) [c] = None -> fallbacks w' = fallbacks w + 1).
Proof.
  intros Ho Hm.
  assert (Hn : (1 <= Z.of_nat order < Z.of_nat (length corpus))%Z) by lia.
  destruct (Ngram_init_valid _ _ _ Hn Hm) as (Hok & Hne & Hnm).
  assert (Htab : table m = record [] (observations corpus order)).
  { rewrite Ngram_init_nat in Hm. injection Hm as E. rewrite <- E. reflexivity. }
  assert (Hclosed : forall k k',
            tbl_get (table m) k <> None -> k' <> [] -> ends_with k k' = true ->
            tbl_get (table m) k' <> None).
  { intros k k' Hk Hk' He. rewrite Htab in *.
    apply tbl_get_window in Hk. destruct Hk as (_ & i & Hi & Hw).
    apply tbl_get_window. split; [exact Hk'|]. exists i.
    split; [exact Hi|]. eapply ends_with_trans; eassumption. }
  split; [exact Hclosed|].
  pose proof (slice_from_last (ctx ++ [c]) order ltac:(lia)) as Hpre.
  rewrite <- Hnm in Hpre. rewrite length_app in Hpre. simpl in Hpre.
  rewrite skipn_snoc in Hpre by lia.
  set (p0 := skipn (length ctx + 1 - order) ctx) in *.
  assert (Hsuf : forall j, j < length (p0 ++ [c]) ->
                 ends_with (skipn j (p0 ++ [c])) [c] = true).
  { intros j Hj. rewrite length_app in Hj. simpl in Hj.
    rewrite skipn_snoc by lia. apply ends_with_last. }
  destruct (first_hit_dec (table m) (slice_from (ctx ++ [c]) (- n m)))
    as [(j & ctr & Hj & Hget & Hmiss)|Hmiss].
  - destruct (getitem_hit corpus m (ctx ++ [c]) j ctr w Hok Hj Hget Hmiss)
      as (ch & _ & _ & Hr).
    exists ch, (advance 1 j 0 w). split; [exact Hr|]. split.
    + intros _. simpl. lia.
    + intros Hc. exfalso. rewrite Hpre in Hj, Hget.
      apply (Hclosed (skipn j (p0 ++ [c])) [c]);
        [congruence | discriminate | apply Hsuf; exact Hj | exact Hc].
  - destruct (getitem_miss corpus m (ctx ++ [c]) w Hok Hne Hmiss)
      as (k & ctr & ch & _ & _ & _ & _ & Hr).
    eexists ch, _. split; [exact Hr|]. split.
    + intros Hc. exfalso. apply Hc. rewrite Hpre in Hmiss.
      specialize (Hmiss (length p0)). rewrite length_app in Hmiss.
      simpl in Hmiss. rewrite skipn_snoc, skipn_all in Hmiss by lia.
      apply Hmiss. lia.
    + intros _. simpl. lia.
Qed.

Lemma X11_witness :
  let m := mkNgram [(s_ "a", [("b"%char, 1)]); (s_ "b", [("c"%char, 1)])] 1 in
  let w := mkWorld (fun i => i) 0 0 0 in
  (forall k k',
     tbl_get (table m) k <> None -> k' <> [] -> ends_with k k' = true ->
     tbl_get (table m) k' <> None) /\
  exists ch w',
    Ngram_getitem m (s_ "ab" ++ ["c"%char]) w = Ok (ch, w') /\
    (tbl_get (table m) ["c"%char] <> None -> fallbacks w' = fallbacks w) /\
    (tbl_get (table m) ["c"%char] = None -> fallbacks w' = fallbacks w + 1).
Proof.
  apply (X11_fallback_iff_last_char (s_ "abc") 1); [simpl; lia | reflexivity].
Defined.
